(** * PymongoSimpleAgenda: the console agenda of [main.py] over a MongoDB collection

    The program reads lines from the console, prints lines to it and calls
    six methods of one pymongo collection.  The embedding keeps the three
    together in one machine: the lines still to be read, the documents of
    the collection, and a transcript of every prompt, printed line and
    store call in the order they happen.

    Scope of the model.
    - Text is ASCII: [str.lower], [str.strip], [str.capitalize] and [int]
      are modelled on the code points below 128 and leave the others alone.
    - The collection is a list of documents in natural (insertion) order;
      [find_one], [update_one] and [delete_one] act on the first match.
    - [MongoClient()] is created with the default write concern, so every
      write is acknowledged.
    - Integers are unbounded in Python and 64-bit in BSON: a call that
      carries an integer outside the signed 64-bit range raises
      [OverflowError] in the driver.  The 16 MB limit on a document is left
      out.
    - [int] has no limit on the number of digits (the limit of recent
      Python versions is switched off).
    - [input] on an exhausted console raises [EOFError], as Python does. *)

From Stdlib Require Import ZArith Ascii String List Lia.
From stdpp Require Import base option list gmap strings pretty.

Local Open Scope string_scope.
Local Open Scope list_scope.
Local Open Scope Z_scope.

(** ** Python strings *)

Module PyStr.

Definition code (c : ascii) : nat := nat_of_ascii c.

Definition is_upper (c : ascii) : bool :=
  (65 <=? code c)%nat && (code c <=? 90)%nat.

Definition is_lower (c : ascii) : bool :=
  (97 <=? code c)%nat && (code c <=? 122)%nat.

Definition lower_char (c : ascii) : ascii :=
  if is_upper c then ascii_of_nat (code c + 32) else c.

Definition upper_char (c : ascii) : ascii :=
  if is_lower c then ascii_of_nat (code c - 32) else c.

(** [str.lower] *)
Fixpoint lower (s : string) : string :=
  match s with
  | EmptyString => EmptyString
  | String c r => String (lower_char c) (lower r)
  end.

(** [str.capitalize]: first character upper-cased, the rest lower-cased. *)
Definition capitalize (s : string) : string :=
  match s with
  | EmptyString => EmptyString
  | String c r => String (upper_char c) (lower r)
  end.

(** The ASCII characters for which [str.isspace] holds: TAB, LF, VT, FF,
    CR, the four separators FS GS RS US, and the space. *)
Definition is_space (c : ascii) : bool :=
  ((9 <=? code c)%nat && (code c <=? 13)%nat)
  || ((28 <=? code c)%nat && (code c <=? 32)%nat).

(** The white space of C's [isspace], which is what [int] skips in an
    ASCII string: TAB, LF, VT, FF, CR and the space. *)
Definition is_c_space (c : ascii) : bool :=
  ((9 <=? code c)%nat && (code c <=? 13)%nat) || (code c =? 32)%nat.

Fixpoint lstrip (space : ascii → bool) (s : string) : string :=
  match s with
  | EmptyString => EmptyString
  | String c r => if space c then lstrip space r else s
  end.

Definition rstrip (space : ascii → bool) (s : string) : string :=
  String.rev (lstrip space (String.rev s)).

(** [str.strip] *)
Definition strip (s : string) : string := rstrip is_space (lstrip is_space s).

Definition digit (c : ascii) : option Z :=
  if (48 <=? code c)%nat && (code c <=? 57)%nat
  then Some (Z.of_nat (code c - 48)) else None.

(** Digits of a decimal literal: at least one digit, single underscores
    allowed between two digits only.  [after_digit] tells whether the
    previous character was a digit. *)
Fixpoint digits (acc : Z) (after_digit : bool) (s : string) : option Z :=
  match s with
  | EmptyString => if after_digit then Some acc else None
  | String c r =>
      match digit c with
      | Some d => digits (10 * acc + d) true r
      | None =>
          if Ascii.eqb c "_" && after_digit then digits acc false r else None
      end
  end.

(** [int(s)] on a string, base 10: surrounding white space is dropped,
    one sign is allowed, then the digits.  [None] stands for
    [ValueError]. *)
Definition int (s : string) : option Z :=
  match rstrip is_c_space (lstrip is_c_space s) with
  | String "+" r => digits 0 false r
  | String "-" r => Z.opp <$> digits 0 false r
  | t => digits 0 false t
  end.

(** [str(n)] for an integer. *)
Definition of_int (n : Z) : string := pretty n.

Definition nl : string := String (ascii_of_nat 10) EmptyString.

End PyStr.

Import PyStr.

(** ** Documents and the collection *)

(** The two kinds of value the program ever puts in a document. *)
Inductive value :=
  | VInt (n : Z)
  | VStr (s : string).

#[global] Instance value_eq_dec : EqDecision value.
Proof. solve_decision. Defined.

(** A document is a Python [dict] with string keys. *)
Abbreviation document := (gmap string value).

(** Keys constants *)
Definition ID_KEY : string := "_id".
Definition NAME_KEY : string := "name".
Definition AGE_KEY : string := "age".
Definition PHONE_KEY : string := "phone".
Definition EMAIL_KEY : string := "email".

(** The calls the program makes on [db_contacts]. *)
Inductive store_call :=
  | InsertOne (doc : document)
  | FindOne (key : string) (v : value)
  | CountDocuments
  | Find
  | UpdateOne (_id : value) (field : string) (v : value)
  | DeleteOne (_id : value).

(** What happens at the console and at the store, in order. *)
Inductive event :=
  | Prompt (text : string)      (* the prompt written by [input] *)
  | Print (text : string)       (* one call of [print] *)
  | Call (c : store_call).

Inductive exn :=
  | EOFError
  | KeyError
  | AttributeError
  | DuplicateKeyError
  | OverflowError
  | Unmodelled.

#[global] Instance exn_eq_dec : EqDecision exn.
Proof. solve_decision. Defined.

Record state := State {
  db_contacts : list document;   (* the collection, in natural order *)
  trace : list event             (* the transcript so far *)
}.

Definition log (e : event) (s : state) : state :=
  State (db_contacts s) (trace s ++ [e]).

Definition logs (es : list event) (s : state) : state :=
  State (db_contacts s) (trace s ++ es).

Definition set_db (d : list document) (s : state) : state :=
  State d (trace s).

(** ** The monad of the flows: console lines in, state through, or an
    exception *)

Inductive result (A : Type) :=
  | Ok (a : A) (ins : list string) (s : state)
  | Raise (e : exn) (ins : list string) (s : state).
Arguments Ok {A} a ins s.
Arguments Raise {A} e ins s.

Definition M (A : Type) : Type := list string → state → result A.

Definition ret {A} (a : A) : M A := λ ins s, Ok a ins s.

Definition bind {A B} (m : M A) (f : A → M B) : M B :=
  λ ins s,
    match m ins s with
    | Ok a ins' s' => f a ins' s'
    | Raise e ins' s' => Raise e ins' s'
    end.

Definition raise {A} (e : exn) : M A := λ ins s, Raise e ins s.

(** [try: m except e: h] *)
Definition try_except {A} (m : M A) (e : exn) (h : M A) : M A :=
  λ ins s,
    match m ins s with
    | Ok a ins' s' => Ok a ins' s'
    | Raise e' ins' s' =>
        if decide (e' = e) then h ins' s' else Raise e' ins' s'
    end.

Declare Scope agenda_scope.
Delimit Scope agenda_scope with agenda.
Notation "x <- m ;; k" := (bind m (λ x, k))
  (at level 100, m at next level, right associativity) : agenda_scope.
Notation "m ;; k" := (bind m (λ _, k))
  (at level 100, right associativity) : agenda_scope.
Local Open Scope agenda_scope.

Definition emit (e : event) : M unit := λ ins s, Ok tt ins (log e s).

(** [print(text)] *)
Definition print (text : string) : M unit := emit (Print text).

(** [input(prompt)]: the prompt is written first; with no line left the
    call raises [EOFError]. *)
Definition input (prompt : string) : M string :=
  λ ins s,
    match ins with
    | [] => Raise EOFError [] (log (Prompt prompt) s)
    | l :: rest => Ok l rest (log (Prompt prompt) s)
    end.

(** [d[k]] *)
Definition getitem (d : document) (k : string) : M value :=
  match d !! k with
  | Some v => ret v
  | None => raise KeyError
  end.

(** ** The pymongo collection *)

Record InsertOneResult := {
  ins_acknowledged : bool;
  inserted_id : value
}.

Record UpdateResult := {
  upd_acknowledged : bool;
  matched_count : Z;
  modified_count : Z;
  upserted_id : option value
}.

(** BSON holds integers of at most eight bytes; the driver refuses the rest
    while it encodes the call. *)
Definition storable (v : value) : bool :=
  match v with
  | VInt n => (-2 ^ 63 <=? n) && (n <? 2 ^ 63)
  | VStr _ => true
  end.

Definition encodable (doc : document) : bool :=
  bool_decide (map_Forall (λ _ v, storable v = true) doc).

(** The equality filter [{key: v}]. *)
Definition matches (key : string) (v : value) (d : document) : Prop :=
  d !! key = Some v.

#[global] Instance matches_dec key v d : Decision (matches key v d).
Proof. unfold matches. apply _. Defined.

(** First document matching [{key: v}], with its position. *)
Definition first_match (key : string) (v : value) (docs : list document)
  : option (nat * document) :=
  list_find (matches key v) docs.

(** [insert_one(doc)].  The call is refused with [DuplicateKeyError] when a
    stored document has the same [_id]; otherwise the document is appended.
    pymongo gives a document without [_id] a fresh ObjectId: the program
    never inserts such a document and the model leaves that case out
    ([Unmodelled]). *)
Definition insert_one (doc : document) : M InsertOneResult :=
  emit (Call (InsertOne doc)) ;;
  if negb (encodable doc) then raise OverflowError else
  match doc !! ID_KEY with
  | None => raise Unmodelled
  | Some i =>
      λ ins s,
        match first_match ID_KEY i (db_contacts s) with
        | Some _ => Raise DuplicateKeyError ins s
        | None =>
            Ok {| ins_acknowledged := true; inserted_id := i |}
               ins (set_db (db_contacts s ++ [doc]) s)
        end
  end.

(** [find_one({key: v})] *)
Definition find_one (key : string) (v : value) : M (option document) :=
  emit (Call (FindOne key v)) ;;
  if negb (storable v) then raise OverflowError else
  λ ins s, Ok (snd <$> first_match key v (db_contacts s)) ins s.

(** [count_documents({})] *)
Definition count_documents : M Z :=
  emit (Call CountDocuments) ;;
  λ ins s, Ok (Z.of_nat (length (db_contacts s))) ins s.

(** [find()], drained by the caller's [for]. *)
Definition find : M (list document) :=
  emit (Call Find) ;;
  λ ins s, Ok (db_contacts s) ins s.

(** [update_one({"_id": i}, {"$set": {field: v}})] *)
Definition update_one (i : value) (field : string) (v : value)
  : M UpdateResult :=
  emit (Call (UpdateOne i field v)) ;;
  if negb (storable i && storable v) then raise OverflowError else
  λ ins s,
    match first_match ID_KEY i (db_contacts s) with
    | Some (pos, d) =>
        Ok {| upd_acknowledged := true;
              matched_count := 1;
              modified_count := if decide (d !! field = Some v) then 0 else 1;
              upserted_id := None |}
           ins (set_db (<[pos := <[field := v]> d]> (db_contacts s)) s)
    | None =>
        Ok {| upd_acknowledged := true;
              matched_count := 0;
              modified_count := 0;
              upserted_id := None |}
           ins s
    end.

(** [delete_one({"_id": i})] *)
Definition delete_one (i : value) : M unit :=
  emit (Call (DeleteOne i)) ;;
  if negb (storable i) then raise OverflowError else
  λ ins s,
    match first_match ID_KEY i (db_contacts s) with
    | Some (pos, _) => Ok tt ins (set_db (delete pos (db_contacts s)) s)
    | None => Ok tt ins s
    end.

(** ** The flows of [main.py] *)

Definition SEP29 : string := "-----------------------------".
Definition SEP19 : string := "-------------------".

(** The dictionary literal handed to [insert_one]. *)
Definition new_contact (_id : Z) (name : string) (age : Z)
    (phone email : string) : document :=
  <[ID_KEY := VInt _id]> (<[NAME_KEY := VStr name]> (<[AGE_KEY := VInt age]>
    (<[PHONE_KEY := VStr phone]> (<[EMAIL_KEY := VStr email]> ∅)))).

(** How an f-string shows a value. *)
Definition format_value (v : value) : string :=
  match v with
  | VInt n => of_int n
  | VStr t => t
  end.

(** The two integer loops of [create_contact]:
    [while True: try: x = int(input(prompt)); break
                 except ValueError: print(complaint)].
    Every turn reads one line, so the loop recurses on the lines left. *)
Fixpoint int_loop (prompt complaint : string) (ins : list string) (s : state)
  : result Z :=
  match ins with
  | [] => Raise EOFError [] (log (Prompt prompt) s)
  | l :: rest =>
      match int l with
      | Some n => Ok n rest (log (Prompt prompt) s)
      | None => int_loop prompt complaint rest
                  (log (Print complaint) (log (Prompt prompt) s))
      end
  end.

(** The [try] statement that ends [create_contact]. *)
Definition store_contact (_id : Z) (name : string) (age : Z)
    (phone email : string) : M unit :=
  try_except
    (result <- insert_one (new_contact _id name age phone email) ;;
     if ins_acknowledged result
     then print ("Successfully created with id: "
                 +:+ format_value (inserted_id result))
     else print "Insert not acknowledged.")
    DuplicateKeyError
    (print ("The id " +:+ of_int _id
            +:+ " already exists, please enter an unique ID.")).

Definition create_contact : M unit :=
  _id <- int_loop "Enter ID: " "ID must be a number. Please try again." ;;
  name <- input "Enter name: " ;;
  let name := lower name in
  age <- int_loop "Enter age: " "Age must be a number. Please try again." ;;
  phone <- input "Enter phone number: " ;;
  let phone := lower phone in
  email <- input "Enter email: " ;;
  let email := lower email in
  store_contact _id name age phone email.

(** [v.capitalize()]; an integer has no such method. *)
Definition capitalize_value (v : value) : M string :=
  match v with
  | VStr t => ret (capitalize t)
  | VInt _ => raise AttributeError
  end.

Definition contact_text (i : value) (name : string) (a p e : value) : string :=
  "ID:    " +:+ format_value i +:+ nl +:+
  "Name:  " +:+ name +:+ nl +:+
  "Age:   " +:+ format_value a +:+ nl +:+
  "Phone: " +:+ format_value p +:+ nl +:+
  "Email: " +:+ format_value e.

Definition print_contact (contact : document) : M unit :=
  i <- getitem contact ID_KEY ;;
  n <- getitem contact NAME_KEY ;;
  n <- capitalize_value n ;;
  a <- getitem contact AGE_KEY ;;
  p <- getitem contact PHONE_KEY ;;
  e <- getitem contact EMAIL_KEY ;;
  print (contact_text i n a p e).

(** Truth value of what [find_one] returns: [None] and the empty dict are
    false. *)
Definition truthy (contact : option document) : bool :=
  match contact with
  | Some d => negb (bool_decide (d = ∅))
  | None => false
  end.

Definition not_found (name : string) : M unit :=
  print ("Contact " +:+ capitalize name +:+ " not found, please try again.").

Definition search_one : M unit :=
  name <- input "Enter name to search: " ;;
  let name := lower name in
  contact <- find_one NAME_KEY (VStr name) ;;
  match contact with
  | Some c =>
      if truthy contact
      then print SEP29 ;; print_contact c ;; print SEP29
      else not_found name
  | None => not_found name
  end.

(** The [for contact in contacts] loop of [show_all]. *)
Fixpoint show_each (contacts : list document) : M unit :=
  match contacts with
  | [] => ret tt
  | contact :: rest =>
      print SEP29 ;; print_contact contact ;; show_each rest
  end.

Definition show_all : M unit :=
  n <- count_documents ;;
  if n =? 0
  then print SEP29 ;; print "No data found." ;; print SEP29
  else
    contacts <- find ;;
    show_each contacts ;;
    print SEP29.

(** Membership in a Python list of strings. *)
Definition py_in (x : string) (l : list string) : bool := bool_decide (x ∈ l).

(** The first loop of [update]: which field to change. *)
Fixpoint field_loop (ins : list string) (s : state) : result string :=
  match ins with
  | [] => Raise EOFError [] (log (Prompt "What field do you want to update? ") s)
  | l :: rest =>
      let s := log (Prompt "What field do you want to update? ") s in
      let field := strip (lower l) in
      if String.eqb field "id"
      then field_loop rest
             (log (Print "You can't modify the ID. (It's immutable!)") s)
      else
        let field := if py_in field ["phone number"] then PHONE_KEY else field in
        let field := if py_in field ["e-mail"] then EMAIL_KEY else field in
        if negb (py_in field [NAME_KEY; AGE_KEY; PHONE_KEY; EMAIL_KEY])
        then field_loop rest
               (log (Print ("Field " +:+ field +:+ " does not exist.")) s)
        else Ok field rest s
  end.

(** The second loop of [update]: the new value.  The only [break] sits in
    the [try] of the age branch. *)
Fixpoint value_loop (field : string) (ins : list string) (s : state)
  : result value :=
  match ins with
  | [] => Raise EOFError [] (log (Prompt "Enter the value: ") s)
  | l :: rest =>
      let s := log (Prompt "Enter the value: ") s in
      let value := lower l in
      if py_in field [AGE_KEY]
      then match int value with
           | Some n => Ok (VInt n) rest s
           | None => value_loop field rest
                       (log (Print "Age must be a number. Please try again.") s)
           end
      else value_loop field rest s
  end.

Definition format_option (o : option value) : string :=
  match o with
  | Some v => format_value v
  | None => "None"
  end.

(** [raw_result] as a stand-alone server replies, shown as Python shows a
    dict. *)
Definition raw_result (r : UpdateResult) : string :=
  "{'n': " +:+ of_int (matched_count r) +:+
  ", 'nModified': " +:+ of_int (modified_count r) +:+
  ", 'ok': 1.0, 'updatedExisting': " +:+
  (if matched_count r =? 0 then "False" else "True") +:+ "}".

Definition update : M unit :=
  name <- input "Enter name to search: " ;;
  let name := lower name in
  contact <- find_one NAME_KEY (VStr name) ;;
  match contact with
  | Some c =>
      if negb (truthy contact) then not_found name
      else
        print SEP19 ;; print_contact c ;; print SEP19 ;;
        field <- field_loop ;;
        value <- value_loop field ;;
        i <- getitem c ID_KEY ;;
        result <- update_one i field value ;;
        if upd_acknowledged result
        then
          print ("Successfully updated. [" +:+ of_int (matched_count result)
                 +:+ "] [" +:+ format_option (upserted_id result) +:+ "]") ;;
          print ("Raw result: " +:+ raw_result result)
        else print "Insert not acknowledged."
  | None => not_found name
  end.

Definition delete : M unit :=
  name <- input "Enter name to delete: " ;;
  contact <- find_one NAME_KEY (VStr name) ;;
  match contact with
  | Some c =>
      if negb (truthy contact) then not_found name
      else
        print SEP19 ;; print_contact c ;; print SEP19 ;;
        answer <- input "Are you sure you want to delete this contact? (Y/N) > " ;;
        if py_in (lower answer) ["y"; "yes"]
        then
          i <- getitem c ID_KEY ;;
          delete_one i ;;
          print "Contact deleted."
        else ret tt
  | None => not_found name
  end.

(** Options constants *)
Definition EXIT_OPT : Z := 0.
Definition CREATE_OPT : Z := 1.
Definition SEARCH_OPT : Z := 2.
Definition SHOW_ALL_OPT : Z := 3.
Definition UPDATE_OPT : Z := 4.
Definition DELETE_OPT : Z := 5.

Definition print_menu : M unit :=
  print "Menu:" ;;
  print "  0. Exit" ;;
  print "  1. Create" ;;
  print "  2. Search" ;;
  print "  3. Show All" ;;
  print "  4. Update" ;;
  print "  5. Delete".

(** What the body of the menu loop does with the line read; [true] is
    [break], [false] goes round again ([continue] or the end of the
    body). *)
Definition dispatch (l : string) : M bool :=
  match int l with
  | None =>
      print "*** The option must be a number. Please try again. ***" ;;
      ret false
  | Some opt =>
      if opt =? EXIT_OPT then ret true
      else
        (if opt =? CREATE_OPT then create_contact
         else if opt =? SEARCH_OPT then search_one
         else if opt =? SHOW_ALL_OPT then show_all
         else if opt =? UPDATE_OPT then update
         else if opt =? DELETE_OPT then delete
         else print "*** Not a valid option. Please try again. ***") ;;
        ret false
  end.

(** One turn of the menu loop. *)
Definition menu_turn : M bool :=
  print_menu ;;
  l <- input "Select option> " ;;
  dispatch l.

(** The menu loop.  A turn that does not raise has read at least one line,
    so [S (length ins)] turns are always enough; [None] is the loop cut
    short by [fuel]. *)
Fixpoint main_loop (fuel : nat) (ins : list string) (s : state)
  : option (result unit) :=
  match fuel with
  | O => None
  | S fuel =>
      match menu_turn ins s with
      | Ok true ins' s' => Some (print "Thanks for using this app! Cya!" ins' s')
      | Ok false ins' s' => main_loop fuel ins' s'
      | Raise e ins' s' => Some (Raise e ins' s')
      end
  end.

Definition main (ins : list string) (s : state) : option (result unit) :=
  main_loop (S (length ins)) ins s.

(** ** Vocabulary of the statements *)

(** Every stored [_id] occurs once: the unique index MongoDB keeps on
    [_id]. *)
Definition unique_ids (docs : list document) : Prop :=
  ∀ i j d1 d2 v,
    docs !! i = Some d1 → docs !! j = Some d2 →
    d1 !! ID_KEY = Some v → d2 !! ID_KEY = Some v → i = j.

(** Where a run ends, returned or raised: the lines left and the state. *)
Definition outcome {A} (r : result A) : list string * state :=
  match r with
  | Ok _ ins s => (ins, s)
  | Raise _ ins s => (ins, s)
  end.

(** From [c] to [c']: lines are only consumed, the transcript only grows,
    by events that [P] allows, and the collections are related by [Q]. *)
Definition moves (P : event → Prop) (Q : relation (list document))
    (c c' : list string * state) : Prop :=
  (length c'.1 ≤ length c.1)%nat
  ∧ (∃ new, trace c'.2 = trace c.2 ++ new ∧ Forall P new)
  ∧ Q (db_contacts c.2) (db_contacts c'.2).

(** [m] moves so from wherever it is started, whether it returns or
    raises. *)
Definition respects (P : event → Prop) (Q : relation (list document))
    {A} (m : M A) : Prop :=
  ∀ ins s, moves P Q (ins, s) (outcome (m ins s)).

(** The fields [update] accepts. *)
Definition updatable (field : string) : Prop :=
  field ∈ [NAME_KEY; AGE_KEY; PHONE_KEY; EMAIL_KEY].

(** What [update] sends as the new value: an integer for the age, a
    string for the other fields. *)
Definition typed (f : string) (v : value) : Prop :=
  match v with
  | VInt _ => f = AGE_KEY
  | VStr _ => f ≠ AGE_KEY
  end.

(** Console events are always allowed; [C] says which store calls are. *)
Definition allowing (C : store_call → Prop) (e : event) : Prop :=
  match e with
  | Call c => C c
  | _ => True
  end.

(** The column of [_id]s of the collection. *)
Definition ids (docs : list document) : list (option value) :=
  (λ d : document, d !! ID_KEY) <$> docs.

Definition same_ids : relation (list document) := λ d d', ids d' = ids d.

(** Store calls that leave every [_id] alone: an update only of one of the
    four accepted fields, and no insert or delete. *)
Definition spares_id (c : store_call) : Prop :=
  match c with
  | UpdateOne _ f _ => updatable f
  | FindOne _ _ => True
  | _ => False
  end.

(** The text [print_contact] prints, when the document has the five keys
    and a string for its name. *)
Definition contact_display (d : document) : option string :=
  match d !! ID_KEY, d !! NAME_KEY, d !! AGE_KEY, d !! PHONE_KEY,
        d !! EMAIL_KEY with
  | Some i, Some (VStr n), Some a, Some p, Some e =>
      Some (contact_text i (capitalize n) a p e)
  | _, _, _, _, _ => None
  end.

(** The collection after [delete_one({"_id": i})]. *)
Definition without (i : value) (docs : list document) : list document :=
  match first_match ID_KEY i docs with
  | Some (pos, _) => base.delete pos docs
  | None => docs
  end.

(** The transcript of [delete] up to the question, for a contact found. *)
Definition delete_shown (l text : string) : list event :=
  [Prompt "Enter name to delete: "; Call (FindOne NAME_KEY (VStr l));
   Print SEP19; Print text; Print SEP19;
   Prompt "Are you sure you want to delete this contact? (Y/N) > "].

(** The collection after [update_one({"_id": i}, {"$set": {f: v}})]. *)
Definition updated (i : value) (f : string) (v : value)
    (docs : list document) : list document :=
  match first_match ID_KEY i docs with
  | Some (pos, d) => <[pos := <[f := v]> d]> docs
  | None => docs
  end.

Definition update_reply (i : value) (f : string) (v : value)
    (docs : list document) : UpdateResult :=
  match first_match ID_KEY i docs with
  | Some (pos, d) =>
      {| upd_acknowledged := true; matched_count := 1;
         modified_count := if decide (d !! f = Some v) then 0 else 1;
         upserted_id := None |}
  | None =>
      {| upd_acknowledged := true; matched_count := 0;
         modified_count := 0; upserted_id := None |}
  end.

(** No store call at all. *)
Definition console_only : event → Prop := allowing (λ _, False).

(** The transcript of [update] up to the question, for a contact found. *)
Definition update_shown (name text : string) : list event :=
  [Prompt "Enter name to search: "; Call (FindOne NAME_KEY (VStr name));
   Print SEP19; Print text; Print SEP19].

(** What the [for] loop of [show_all] prints for contacts whose texts are
    [texts]. *)
Definition listing (texts : list string) : list event :=
  flat_map (λ t, [Print SEP29; Print t]) texts.

Definition create_prompts : list event :=
  [Prompt "Enter ID: "; Prompt "Enter name: "; Prompt "Enter age: ";
   Prompt "Enter phone number: "; Prompt "Enter email: "].

Definition search_shown (name text : string) : list event :=
  [Prompt "Enter name to search: "; Call (FindOne NAME_KEY (VStr name));
   Print SEP29; Print text; Print SEP29].

(** The record the claim expects back: the five values entered, name and
    email lower-cased and nothing else touched. *)
Definition claimed_record (idv : Z) (n : string) (agev : Z) (p e : string)
  : document :=
  new_contact idv (lower n) agev p (lower e).

(** The transcript of a loop that refused every line of [bads]. *)
Definition retries (prompt complaint : string) (bads : list string)
  : list event :=
  flat_map (λ _, [Prompt prompt; Print complaint]) bads.

Definition menu_lines : list event :=
  [Print "Menu:"; Print "  0. Exit"; Print "  1. Create"; Print "  2. Search";
   Print "  3. Show All"; Print "  4. Update"; Print "  5. Delete"].

(** A document as the program makes them: the five keys, a string for the
    name, and integers that fit. *)
Definition well_formed (d : document) : Prop :=
  is_Some (contact_display d) ∧ encodable d = true.

(** A collection as the program and the store keep it. *)
Definition sound (docs : list document) : Prop :=
  unique_ids docs ∧ Forall well_formed docs.

Definition keeps_sound : relation (list document) :=
  λ d d', sound d → sound d'.

(** Store calls of the menu loop: an update is on one of the four fields
    and carries a value of the field's kind. *)
Definition updates_typed (c : store_call) : Prop :=
  match c with
  | UpdateOne _ f v => updatable f ∧ typed f v
  | _ => True
  end.

(** The key each flow looks the name up with: the line as typed, through
    [key]. *)
Definition looks_up_with (flow : M unit) (prompt : string)
    (key : string → string) : Prop :=
  ∀ l rest s,
    ∃ new,
      trace (outcome (flow (l :: rest) s)).2
      = trace s ++ [Prompt prompt; Call (FindOne NAME_KEY (VStr (key l)))]
        ++ new.

(** What holds when [m], started on [ins] and [s], ends: [Post] of the
    value, the lines left and the state if it returns, [Exc] of the
    exception and the state if it raises. *)
Definition wp {A} (m : M A) (ins : list string) (s : state)
    (Post : A → list string → state → Prop) (Exc : exn → state → Prop) : Prop :=
  match m ins s with
  | Ok a ins' s' => Post a ins' s'
  | Raise e _ s' => Exc e s'
  end.

(** The contact a name finds, and that it cannot be shown. *)
Definition unshowable (name : string) (docs : list document) : Prop :=
  ∃ pos c, first_match NAME_KEY (VStr name) docs = Some (pos, c)
           ∧ contact_display c = None.

(** What every flow grants on a sound collection. *)
Definition sound_end {A} (m : M A) : Prop :=
  ∀ ins s,
    sound (db_contacts s) →
    wp m ins s
      (λ _ _ s', sound (db_contacts s'))
      (λ e s', (e = EOFError ∨ e = OverflowError) ∧ sound (db_contacts s')).

(** What follows a flow chosen in the menu: the menu again, unless the flow
    raised. *)
Definition then_menu (r : result unit) : option (result unit) :=
  match r with
  | Ok _ ins s => main ins s
  | Raise e ins s => Some (Raise e ins s)
  end.

Definition not_found_line (name : string) : event :=
  Print ("Contact " +:+ capitalize name +:+ " not found, please try again.").

(** [m] makes only store calls that [C] allows, whatever is typed and
    however it ends. *)
Definition calls_only (C : store_call → Prop) {A} (m : M A) : Prop :=
  ∀ ins s,
    ∃ new, trace (outcome (m ins s)).2 = trace s ++ new
           ∧ ∀ c, Call c ∈ new → C c.

Definition is_find_one (c : store_call) : Prop :=
  match c with FindOne _ _ => True | _ => False end.

Definition is_listing (c : store_call) : Prop :=
  match c with CountDocuments | Find => True | _ => False end.

Definition is_insert_one (c : store_call) : Prop :=
  match c with InsertOne _ => True | _ => False end.

Definition is_find_or_update (c : store_call) : Prop :=
  match c with FindOne _ _ | UpdateOne _ _ _ => True | _ => False end.

Definition is_find_or_delete (c : store_call) : Prop :=
  match c with FindOne _ _ | DeleteOne _ => True | _ => False end.

(** The field an answer to "What field do you want to update?" names, if
    it names one. *)
Definition field_answer (l : string) : option string :=
  let f := strip (lower l) in
  if decide (f = "phone number") then Some PHONE_KEY
  else if decide (f = "e-mail") then Some EMAIL_KEY
  else if decide (f ∈ [NAME_KEY; AGE_KEY; PHONE_KEY; EMAIL_KEY]) then Some f
  else None.

(** What a refused answer is told. *)
Definition field_complaint (l : string) : string :=
  let f := strip (lower l) in
  if decide (f = "id") then "You can't modify the ID. (It's immutable!)"
  else "Field " +:+ f +:+ " does not exist.".

(** The transcript of the menu loop for option lines that are no integer:
    for each, the menu, the question and the complaint. *)
Definition menu_retries (bads : list string) : list event :=
  flat_map
    (λ _, menu_lines
          ++ [Prompt "Select option> ";
              Print "*** The option must be a number. Please try again. ***"])
    bads.

(** ** A small agenda to try the flows on *)

Definition ana : document := new_contact 1 "ana" 30 "555-1111" "ana@x.com".

Definition ana_text : string :=
  contact_text (VInt 1) "Ana" (VInt 30) (VStr "555-1111") (VStr "ana@x.com").

(** A second contact of the same name. *)
Definition ana_too : document := new_contact 2 "ana" 41 "555-2222" "ana2@x.com".

Definition ana_too_text : string :=
  contact_text (VInt 2) "Ana" (VInt 41) (VStr "555-2222") (VStr "ana2@x.com").

Definition agenda_ana : state := State [ana] [].

Definition agenda_two : state := State [ana; ana_too] [].

(** * Properties *)

(** ** The transcript *)

Lemma log_logs e s : log e s = logs [e] s.
Proof. reflexivity. Qed.

Lemma logs_logs es1 es2 s : logs es2 (logs es1 s) = logs (es1 ++ es2) s.
Proof. unfold logs; simpl. by rewrite <- app_assoc. Qed.

Lemma logs_nil s : logs [] s = s.
Proof. destruct s as [d t]. unfold logs; simpl. by rewrite app_nil_r. Qed.

Lemma db_logs es s : db_contacts (logs es s) = db_contacts s.
Proof. reflexivity. Qed.

Lemma trace_logs es s : trace (logs es s) = trace s ++ es.
Proof. reflexivity. Qed.

Lemma set_db_logs d es s : set_db d (logs es s) = logs es (set_db d s).
Proof. reflexivity. Qed.

Ltac norm_logs :=
  repeat (rewrite ?log_logs, ?set_db_logs, ?logs_logs, ?db_logs; simpl app).

(** ** Running the monad *)

Lemma bind_Ok {A B} (m : M A) (f : A → M B) ins s a ins' s' :
  m ins s = Ok a ins' s' → bind m f ins s = f a ins' s'.
Proof. intros H. unfold bind. by rewrite H. Qed.

Lemma bind_Raise {A B} (m : M A) (f : A → M B) ins s e ins' s' :
  m ins s = Raise e ins' s' → bind m f ins s = Raise e ins' s'.
Proof. intros H. unfold bind. by rewrite H. Qed.

Lemma run_input prompt l rest s :
  input prompt (l :: rest) s = Ok l rest (logs [Prompt prompt] s).
Proof. reflexivity. Qed.

Lemma run_input_eof prompt s :
  input prompt [] s = Raise EOFError [] (logs [Prompt prompt] s).
Proof. reflexivity. Qed.

Lemma run_print text ins s : print text ins s = Ok tt ins (logs [Print text] s).
Proof. reflexivity. Qed.

Lemma run_emit e ins s : emit e ins s = Ok tt ins (logs [e] s).
Proof. reflexivity. Qed.

Lemma run_ret {A} (a : A) ins s : ret a ins s = Ok a ins s.
Proof. reflexivity. Qed.

(** One statement of a flow: run the head of a [bind] with a known
    equation. *)
Ltac step_with lem :=
  erewrite bind_Ok by (apply lem; first [eassumption|reflexivity]);
  cbv beta zeta.
Ltac step :=
  first [ step_with run_input | step_with run_print | step_with run_emit
        | step_with @run_ret ].

(** ** The collection *)

Lemma first_match_Some key v docs pos d :
  first_match key v docs = Some (pos, d) →
  docs !! pos = Some d ∧ d !! key = Some v
  ∧ ∀ j d', docs !! j = Some d' → (j < pos)%nat → d' !! key ≠ Some v.
Proof.
  unfold first_match. intros H. apply list_find_Some in H.
  destruct H as (H1 & H2 & H3). repeat split; auto.
Qed.

Lemma first_match_None key v docs :
  first_match key v docs = None ↔ ∀ d, d ∈ docs → d !! key ≠ Some v.
Proof.
  unfold first_match. rewrite list_find_None, Forall_forall. reflexivity.
Qed.

Lemma first_match_app_fresh key v docs doc :
  first_match key v docs = None → doc !! key = Some v →
  first_match key v (docs ++ [doc]) = Some (length docs, doc).
Proof.
  intros Hn Hd. unfold first_match in *.
  apply list_find_Some. split; [|split].
  - by rewrite lookup_app_r, Nat.sub_diag by lia.
  - exact Hd.
  - intros j d' Hj Hlt. rewrite lookup_app_l in Hj by done.
    rewrite list_find_None, Forall_forall in Hn.
    apply Hn. eapply list_elem_of_lookup_2; eauto.
Qed.

Lemma unique_ids_first_match docs pos d v :
  unique_ids docs → docs !! pos = Some d → d !! ID_KEY = Some v →
  first_match ID_KEY v docs = Some (pos, d).
Proof.
  intros Hu Hp Hv. unfold first_match. apply list_find_Some.
  split; [done|]. split; [done|].
  intros j d' Hj Hlt Hm. unfold matches in Hm.
  assert (j = pos) by (eapply Hu; eauto). lia.
Qed.

Lemma storable_encodable_new_contact i n a p e :
  storable (VInt i) = true → storable (VInt a) = true →
  encodable (new_contact i n a p e) = true.
Proof.
  intros Hi Ha. unfold encodable, new_contact. apply bool_decide_eq_true.
  repeat (apply map_Forall_insert_2; [by auto|]).
  apply map_Forall_empty.
Qed.

Lemma new_contact_id i n a p e :
  new_contact i n a p e !! ID_KEY = Some (VInt i).
Proof. unfold new_contact. apply lookup_insert_eq. Qed.

Lemma new_contact_name i n a p e :
  new_contact i n a p e !! NAME_KEY = Some (VStr n).
Proof. reflexivity. Qed.

(** ** How the store calls run *)

Lemma insert_one_duplicate doc i ins s :
  encodable doc = true → doc !! ID_KEY = Some i →
  is_Some (first_match ID_KEY i (db_contacts s)) →
  insert_one doc ins s
  = Raise DuplicateKeyError ins (logs [Call (InsertOne doc)] s).
Proof.
  intros He Hi [x Hx]. unfold insert_one, bind, emit.
  rewrite He, Hi. simpl. rewrite Hx. reflexivity.
Qed.

Lemma insert_one_fresh doc i ins s :
  encodable doc = true → doc !! ID_KEY = Some i →
  first_match ID_KEY i (db_contacts s) = None →
  insert_one doc ins s
  = Ok {| ins_acknowledged := true; inserted_id := i |} ins
       (logs [Call (InsertOne doc)] (set_db (db_contacts s ++ [doc]) s)).
Proof.
  intros He Hi Hx. unfold insert_one, bind, emit.
  rewrite He, Hi. simpl. rewrite Hx. reflexivity.
Qed.

Lemma int_loop_good prompt complaint l n rest s :
  int l = Some n →
  int_loop prompt complaint (l :: rest) s = Ok n rest (logs [Prompt prompt] s).
Proof. intros H. simpl. by rewrite H. Qed.

Lemma int_loop_bad prompt complaint l rest s :
  int l = None →
  int_loop prompt complaint (l :: rest) s
  = int_loop prompt complaint rest (logs [Prompt prompt; Print complaint] s).
Proof. intros H. simpl. rewrite H. by norm_logs. Qed.

(** ** Duplicate identifiers *)

(** C4, as stated, fails when the age typed is an integer that does not
    fit in eight bytes: [insert_one] raises [OverflowError] while it encodes
    the document, before the server sees the duplicate [_id].  The flow
    catches [DuplicateKeyError] only, so with [_id] 1 stored and 1 typed
    again nothing is reported, and the program chosen from the menu ends
    with the exception, its next line unread. *)
Lemma duplicate_id_with_an_age_too_wide :
  is_Some (first_match ID_KEY (VInt 1) (db_contacts agenda_ana))
  ∧ create_contact
      ["1"; "Eve"; "9223372036854775808"; "555-3333"; "Eve@X.com"; "0"]
      agenda_ana
    = Raise OverflowError ["0"]
        (logs (create_prompts
               ++ [Call (InsertOne (new_contact 1 "eve" 9223372036854775808
                                      "555-3333" "eve@x.com"))]) agenda_ana)
  ∧ main
      ["1"; "1"; "Eve"; "9223372036854775808"; "555-3333"; "Eve@X.com"; "0"]
      agenda_ana
    = Some (Raise OverflowError ["0"]
              (logs (menu_lines ++ [Prompt "Select option> "]
                     ++ create_prompts
                     ++ [Call (InsertOne (new_contact 1 "eve"
                                            9223372036854775808
                                            "555-3333" "eve@x.com"))])
                 agenda_ana)).
Proof.
  split; [eexists; vm_compute; reflexivity|].
  split; vm_compute; reflexivity.
Qed.

(** C4, amended.  When the id and the age entered are integers that fit in
    eight bytes and the id is already the [_id] of a stored document,
    [insert_one] raises [DuplicateKeyError], [create_contact] catches it,
    prints "The id ... already exists, please enter an unique ID." and
    returns; the collection is the one it started with. *)
Theorem create_contact_duplicate_id
    (i n a p e : string) (rest : list string) (s : state) (idv agev : Z) :
  int i = Some idv → int a = Some agev →
  storable (VInt idv) = true → storable (VInt agev) = true →
  is_Some (first_match ID_KEY (VInt idv) (db_contacts s)) →
  let doc := new_contact idv (lower n) agev (lower p) (lower e) in
  insert_one doc rest (logs create_prompts s)
  = Raise DuplicateKeyError rest
      (logs (create_prompts ++ [Call (InsertOne doc)]) s)
  ∧ ∃ s',
      create_contact (i :: n :: a :: p :: e :: rest) s = Ok tt rest s'
      ∧ trace s'
        = trace s ++ create_prompts
          ++ [Call (InsertOne doc);
              Print ("The id " +:+ of_int idv
                     +:+ " already exists, please enter an unique ID.")]
      ∧ db_contacts s' = db_contacts s.
Proof.
  intros Hi Ha Si Sa Hdup doc.
  assert (Hins : ∀ s0, db_contacts s0 = db_contacts s →
            insert_one doc rest s0
            = Raise DuplicateKeyError rest (logs [Call (InsertOne doc)] s0)).
  { intros s0 Hs0. eapply insert_one_duplicate.
    - by apply storable_encodable_new_contact.
    - apply new_contact_id.
    - by rewrite Hs0. }
  split.
  - rewrite Hins by done. by norm_logs.
  - eexists. split; [|split].
    + unfold create_contact.
      step_with int_loop_good. step.
      step_with int_loop_good. do 2 step.
      unfold store_contact, try_except. fold doc.
      erewrite bind_Raise by (apply Hins; reflexivity).
      rewrite decide_True by done. rewrite run_print. by norm_logs.
    + reflexivity.
    + reflexivity.
Qed.

(** ** What a piece of a flow may do

    [respects P Q m] is proved once for every primitive and every loop, for
    any [P] and any preorder [Q]; the flows follow by [respects_bind]. *)

Section Respects.
Context (P : event → Prop) (Q : relation (list document)) `{!PreOrder Q}.

Lemma moves_refl c : moves P Q c c.
Proof.
  split; [lia|]. split; [|reflexivity].
  exists []. by rewrite app_nil_r.
Qed.

Lemma moves_trans c1 c2 c3 :
  moves P Q c1 c2 → moves P Q c2 c3 → moves P Q c1 c3.
Proof.
  intros (L1 & (n1 & T1 & F1) & Q1) (L2 & (n2 & T2 & F2) & Q2).
  split; [lia|]. split; [|by etrans].
  exists (n1 ++ n2). rewrite T2, T1, app_assoc. split; [done|].
  by apply Forall_app.
Qed.

Lemma moves_logs ins s es : Forall P es → moves P Q (ins, s) (ins, logs es s).
Proof.
  intros H. split; [simpl; lia|]. split; [|reflexivity].
  by exists es.
Qed.

Lemma moves_read l ins s es :
  Forall P es → moves P Q (l :: ins, s) (ins, logs es s).
Proof.
  intros H. split; [simpl; lia|]. split; [|reflexivity].
  by exists es.
Qed.

Lemma moves_set_db ins s d : Q (db_contacts s) d → moves P Q (ins, s) (ins, set_db d s).
Proof.
  intros H. split; [simpl; lia|]. split; [|done].
  exists []. simpl. by rewrite app_nil_r.
Qed.

Lemma respects_ret {A} (a : A) : respects P Q (ret a).
Proof. intros ins s. apply moves_refl. Qed.

Lemma respects_raise {A} e : respects P Q (@raise A e).
Proof. intros ins s. apply moves_refl. Qed.

Lemma respects_bind {A B} (m : M A) (f : A → M B) :
  respects P Q m → (∀ a, respects P Q (f a)) → respects P Q (bind m f).
Proof.
  intros Hm Hf ins s. unfold bind. specialize (Hm ins s).
  destruct (m ins s) as [a ins' s'|e ins' s']; simpl in *; [|done].
  eapply moves_trans; [exact Hm|]. apply Hf.
Qed.

Lemma respects_try_except {A} (m h : M A) e :
  respects P Q m → respects P Q h → respects P Q (try_except m e h).
Proof.
  intros Hm Hh ins s. unfold try_except. specialize (Hm ins s).
  destruct (m ins s) as [a ins' s'|e' ins' s']; simpl in *; [done|].
  destruct (decide (e' = e)); [|done].
  eapply moves_trans; [exact Hm|]. apply Hh.
Qed.

Lemma respects_emit e : P e → respects P Q (emit e).
Proof. intros H ins s. apply (moves_logs ins s [e]). by constructor. Qed.

Lemma respects_print text : P (Print text) → respects P Q (print text).
Proof. apply respects_emit. Qed.

Lemma respects_input prompt : P (Prompt prompt) → respects P Q (input prompt).
Proof.
  intros H [|l ins] s; simpl.
  - apply (moves_logs [] s [Prompt prompt]). by constructor.
  - apply (moves_read l ins s [Prompt prompt]). by constructor.
Qed.

Lemma respects_getitem d k : respects P Q (getitem d k).
Proof.
  unfold getitem. destruct (d !! k); [apply respects_ret|apply respects_raise].
Qed.

Lemma respects_capitalize_value v : respects P Q (capitalize_value v).
Proof. destruct v; [apply respects_raise|apply respects_ret]. Qed.

Lemma respects_print_contact d :
  (∀ text, P (Print text)) → respects P Q (print_contact d).
Proof.
  intros HP. unfold print_contact.
  repeat (apply respects_bind;
          [first [apply respects_getitem|apply respects_capitalize_value]
          |intros ?]).
  by apply respects_print.
Qed.

Lemma respects_int_loop prompt complaint :
  P (Prompt prompt) → P (Print complaint) →
  respects P Q (int_loop prompt complaint).
Proof.
  intros H1 H2 ins. induction ins as [|l ins IH]; intros s.
  - apply (moves_logs [] s [Prompt prompt]). by constructor.
  - simpl. destruct (int l).
    + apply (moves_read l ins s [Prompt prompt]). by constructor.
    + eapply moves_trans; [|apply IH].
      rewrite !log_logs, logs_logs.
      apply (moves_read l ins s [Prompt prompt; Print complaint]).
      by repeat constructor.
Qed.

Lemma respects_field_loop :
  (∀ text, P (Prompt text)) → (∀ text, P (Print text)) →
  respects P Q field_loop.
Proof.
  intros H1 H2 ins. induction ins as [|l ins IH]; intros s.
  - apply (moves_logs [] s [Prompt _]). by constructor.
  - simpl.
    repeat match goal with
           | |- context [if ?b then _ else _] => destruct b
           end;
      first [ eapply moves_trans; [|apply IH];
              rewrite !log_logs, logs_logs;
              apply (moves_read l ins s [Prompt _; Print _]);
              by repeat constructor
            | rewrite log_logs; apply (moves_read l ins s [Prompt _]);
              by constructor ].
Qed.

Lemma respects_value_loop field :
  (∀ text, P (Prompt text)) → (∀ text, P (Print text)) →
  respects P Q (value_loop field).
Proof.
  intros H1 H2 ins. induction ins as [|l ins IH]; intros s.
  - apply (moves_logs [] s [Prompt _]). by constructor.
  - simpl. destruct (py_in field [AGE_KEY]); [destruct (int (lower l))|].
    + rewrite log_logs. apply (moves_read l ins s [Prompt _]).
      by constructor.
    + eapply moves_trans; [|apply IH]. rewrite !log_logs, logs_logs.
      apply (moves_read l ins s [Prompt _; Print _]). by repeat constructor.
    + eapply moves_trans; [|apply IH]. rewrite log_logs.
      apply (moves_read l ins s [Prompt _]). by constructor.
Qed.

Lemma respects_find_one key v :
  P (Call (FindOne key v)) → respects P Q (find_one key v).
Proof.
  intros H. unfold find_one. apply respects_bind; [by apply respects_emit|].
  intros _. destruct (storable v); simpl; [|apply respects_raise].
  intros ins s. apply moves_refl.
Qed.

Lemma respects_count_documents :
  P (Call CountDocuments) → respects P Q count_documents.
Proof.
  intros H. unfold count_documents.
  apply respects_bind; [by apply respects_emit|].
  intros _ ins s. apply moves_refl.
Qed.

Lemma respects_find : P (Call Find) → respects P Q find.
Proof.
  intros H. unfold find. apply respects_bind; [by apply respects_emit|].
  intros _ ins s. apply moves_refl.
Qed.

Lemma respects_insert_one doc :
  P (Call (InsertOne doc)) →
  (∀ docs i, encodable doc = true → doc !! ID_KEY = Some i →
             first_match ID_KEY i docs = None → Q docs (docs ++ [doc])) →
  respects P Q (insert_one doc).
Proof.
  intros H HQ. unfold insert_one.
  apply respects_bind; [by apply respects_emit|]. intros _.
  destruct (encodable doc) eqn:He; simpl; [|apply respects_raise].
  destruct (doc !! ID_KEY) as [i|] eqn:Hi; [|apply respects_raise].
  intros ins s. destruct (first_match ID_KEY i (db_contacts s)) eqn:E; simpl.
  - apply moves_refl.
  - by apply moves_set_db, (HQ _ i).
Qed.

Lemma respects_update_one i field v :
  P (Call (UpdateOne i field v)) →
  (∀ docs pos d, storable v = true →
                 first_match ID_KEY i docs = Some (pos, d) →
                 Q docs (<[pos := <[field := v]> d]> docs)) →
  respects P Q (update_one i field v).
Proof.
  intros H HQ. unfold update_one.
  apply respects_bind; [by apply respects_emit|]. intros _.
  destruct (storable i && storable v) eqn:St; simpl; [|apply respects_raise].
  apply andb_true_iff in St as [_ Sv].
  intros ins s.
  destruct (first_match ID_KEY i (db_contacts s)) as [[pos d]|] eqn:E; simpl.
  - apply moves_set_db. by apply HQ.
  - apply moves_refl.
Qed.

Lemma respects_delete_one i :
  P (Call (DeleteOne i)) →
  (∀ docs pos d, first_match ID_KEY i docs = Some (pos, d) →
                 Q docs (base.delete pos docs)) →
  respects P Q (delete_one i).
Proof.
  intros H HQ. unfold delete_one.
  apply respects_bind; [by apply respects_emit|]. intros _.
  destruct (storable i); simpl; [|apply respects_raise].
  intros ins s.
  destruct (first_match ID_KEY i (db_contacts s)) as [[pos d]|] eqn:E; simpl.
  - apply moves_set_db. by eapply HQ.
  - apply moves_refl.
Qed.

End Respects.

#[local] Instance anything_preorder : PreOrder (λ _ _ : list document, True).
Proof. by split. Qed.

Lemma respects_weaken (P P' : event → Prop) (Q Q' : relation (list document))
    {A} (m : M A) :
  (∀ e, P e → P' e) → (∀ d d', Q d d' → Q' d d') →
  respects P Q m → respects P' Q' m.
Proof.
  intros HP HQ H ins s. destruct (H ins s) as (L & (new & T & F) & D).
  split; [done|]. split; [|by apply HQ].
  exists new. split; [done|]. eapply Forall_impl; eauto.
Qed.

Lemma field_loop_updatable ins s f ins' s' :
  field_loop ins s = Ok f ins' s' → updatable f.
Proof.
  revert s. induction ins as [|l ins IH]; intros s; simpl; [done|].
  destruct (String.eqb _ "id"); [apply IH|].
  match goal with
  | |- context [negb (py_in ?x ?l)] => destruct (py_in x l) eqn:E
  end; simpl; [|apply IH].
  intros [= <- _ _]. unfold py_in in E. by apply bool_decide_eq_true in E.
Qed.

Lemma value_loop_typed f ins s v ins' s' :
  value_loop f ins s = Ok v ins' s' → typed f v.
Proof.
  revert s. induction ins as [|l ins IH]; intros s; simpl; [done|].
  destruct (py_in f [AGE_KEY]) eqn:E; [|apply IH].
  destruct (int (lower l)); [|apply IH].
  intros [= <- _ _]. simpl. apply bool_decide_eq_true in E.
  by apply list_elem_of_singleton in E.
Qed.

Lemma updatable_not_id f : updatable f → f ≠ ID_KEY ∧ f ≠ "id".
Proof.
  unfold updatable. rewrite !elem_of_cons, elem_of_nil.
  intros [->|[->|[->|[->|[]]]]]; by split.
Qed.

Section Flows.
Context (C : store_call → Prop) (Q : relation (list document)) `{!PreOrder Q}.

Local Abbreviation P := (allowing C).

Local Ltac console :=
  first [ apply respects_print | apply respects_input
        | apply respects_print_contact | apply respects_ret
        | apply respects_int_loop | apply respects_field_loop
        | apply respects_value_loop | apply respects_getitem ];
  first [ apply _ | intros; exact I ].

Lemma respects_bind_post {A B} (Φ : A → Prop) (m : M A) (f : A → M B) :
  (∀ ins s a ins' s', m ins s = Ok a ins' s' → Φ a) →
  respects P Q m → (∀ a, Φ a → respects P Q (f a)) →
  respects P Q (bind m f).
Proof.
  intros HΦ Hm Hf ins s. unfold bind. specialize (Hm ins s).
  destruct (m ins s) as [a ins' s'|e ins' s'] eqn:E; simpl in *; [|done].
  eapply moves_trans; [done|exact Hm|]. eapply Hf, HΦ, E.
Qed.

Lemma respects_not_found name : respects P Q (not_found name).
Proof. unfold not_found. console. Qed.

Lemma respects_search_one :
  (∀ k v, C (FindOne k v)) → respects P Q search_one.
Proof.
  intros HF. unfold search_one.
  apply respects_bind; [done|console|intros l].
  apply respects_bind;
    [done|apply respects_find_one; [done|apply HF]|intros [c|]].
  - destruct (truthy _); [|apply respects_not_found].
    repeat (apply respects_bind; [done|console|intros ?]). console.
  - apply respects_not_found.
Qed.

Lemma respects_show_each contacts : respects P Q (show_each contacts).
Proof.
  induction contacts as [|c cs IH]; simpl; [console|].
  repeat (apply respects_bind; [done|console|intros ?]). exact IH.
Qed.

Lemma respects_show_all :
  C CountDocuments → C Find → respects P Q show_all.
Proof.
  intros H1 H2. unfold show_all.
  apply respects_bind;
    [done|apply respects_count_documents; [done|apply H1]|intros n].
  destruct (n =? 0).
  - repeat (apply respects_bind; [done|console|intros ?]). console.
  - apply respects_bind;
      [done|apply respects_find; [done|apply H2]|intros cs].
    apply respects_bind; [done|apply respects_show_each|intros _]. console.
Qed.

Lemma respects_create_contact :
  (∀ i n a p e, C (InsertOne (new_contact i n a p e))) →
  (∀ docs i n a p e,
     encodable (new_contact i n a p e) = true →
     first_match ID_KEY (VInt i) docs = None →
     Q docs (docs ++ [new_contact i n a p e])) →
  respects P Q create_contact.
Proof.
  intros HC HQ. unfold create_contact.
  repeat (apply respects_bind; [done|console|intros ?]).
  unfold store_contact. apply respects_try_except; [done| |console].
  apply respects_bind; [done| |intros r].
  - apply respects_insert_one; [done|apply HC|].
    intros docs i He Hi Hn. rewrite new_contact_id in Hi.
    injection Hi as <-. by apply HQ.
  - destruct (ins_acknowledged r); console.
Qed.

Lemma respects_update :
  (∀ k v, C (FindOne k v)) →
  (∀ i f v, updatable f → typed f v → C (UpdateOne i f v)) →
  (∀ i f v docs pos d,
     updatable f → typed f v → storable v = true →
     first_match ID_KEY i docs = Some (pos, d) →
     Q docs (<[pos := <[f := v]> d]> docs)) →
  respects P Q update.
Proof.
  intros HF HU HQ. unfold update.
  apply respects_bind; [done|console|intros l].
  apply respects_bind;
    [done|apply respects_find_one; [done|apply HF]|intros [c|]];
    [|apply respects_not_found].
  destruct (negb _); [apply respects_not_found|].
  do 3 (apply respects_bind; [done|console|intros ?]).
  apply (respects_bind_post updatable);
    [apply field_loop_updatable|console|intros f Hf].
  apply (respects_bind_post (typed f));
    [apply value_loop_typed|console|intros v Hv].
  apply respects_bind; [done|console|intros ?].
  apply respects_bind; [done| |intros r].
  - apply respects_update_one; [done|simpl; by apply HU|].
    intros; eapply HQ; eauto.
  - destruct (upd_acknowledged r); [|console].
    apply respects_bind; [done|console|intros ?]. console.
Qed.

Lemma respects_delete :
  (∀ k v, C (FindOne k v)) → (∀ i, C (DeleteOne i)) →
  (∀ docs pos, Q docs (base.delete pos docs)) →
  respects P Q delete.
Proof.
  intros HF HD HQ. unfold delete.
  apply respects_bind; [done|console|intros l].
  apply respects_bind;
    [done|apply respects_find_one; [done|apply HF]|intros [c|]];
    [|apply respects_not_found].
  destruct (negb _); [apply respects_not_found|].
  do 4 (apply respects_bind; [done|console|intros ?]).
  destruct (py_in _ _); [|console].
  apply respects_bind; [done|console|intros i].
  apply respects_bind; [done| |intros ?]; [|console].
  apply respects_delete_one; [done|apply HD|]. intros. apply HQ.
Qed.

End Flows.

(** ** The [_id] is never the target of an update *)

Lemma ids_update docs pos d f v :
  docs !! pos = Some d → f ≠ ID_KEY →
  ids (<[pos := <[f := v]> d]> docs) = ids docs.
Proof.
  intros Hp Hf. unfold ids. rewrite list_fmap_insert.
  rewrite lookup_insert_ne by done.
  apply list_insert_id. by rewrite list_lookup_fmap, Hp.
Qed.

#[local] Instance same_ids_preorder : PreOrder same_ids.
Proof.
  split.
  - by intros d.
  - intros d1 d2 d3 H1 H2. unfold same_ids in *. congruence.
Qed.

#[local] Instance eq_docs_preorder : PreOrder (@eq (list document)).
Proof. apply _. Qed.

Lemma field_loop_id l rest s :
  strip (lower l) = "id" →
  field_loop (l :: rest) s
  = field_loop rest
      (logs [Prompt "What field do you want to update? ";
             Print "You can't modify the ID. (It's immutable!)"] s).
Proof. intros H. simpl. rewrite H. simpl. by norm_logs. Qed.

(** C6.  In [update], a field name that is "id" once lower-cased and
    stripped is answered with "You can't modify the ID. (It's immutable!)"
    and the question is asked again, with nothing but the prompt and that
    line added to the transcript; the field the loop finally returns is one
    of name, age, phone, email; and whatever is typed, every [update_one]
    call that [update] makes targets one of these four fields and the
    [_id]s of the collection are afterwards what they were. *)
Theorem update_never_targets_id :
  (∀ l rest s,
     strip (lower l) = "id" →
     field_loop (l :: rest) s
     = field_loop rest
         (logs [Prompt "What field do you want to update? ";
                Print "You can't modify the ID. (It's immutable!)"] s))
  ∧ (∀ ins s f ins' s',
       field_loop ins s = Ok f ins' s' →
       updatable f ∧ f ≠ ID_KEY ∧ f ≠ "id")
  ∧ (∀ ins s,
       ∃ new,
         trace (outcome (update ins s)).2 = trace s ++ new
         ∧ (∀ i f v, Call (UpdateOne i f v) ∈ new →
                     updatable f ∧ f ≠ ID_KEY ∧ f ≠ "id")
         ∧ (∀ doc, Call (InsertOne doc) ∉ new)
         ∧ (∀ i, Call (DeleteOne i) ∉ new)
         ∧ ids (db_contacts (outcome (update ins s)).2) = ids (db_contacts s)).
Proof.
  split; [exact field_loop_id|]. split.
  - intros ins s f ins' s' H. apply field_loop_updatable in H.
    split; [done|]. by apply updatable_not_id.
  - intros ins s.
    assert (H : respects (allowing spares_id) same_ids update).
    { apply respects_update; [apply _|done|done|].
      intros i f v docs pos d Hf _ _ Hm. unfold same_ids.
      apply first_match_Some in Hm as (Hp & _ & _).
      apply ids_update; [done|]. by apply updatable_not_id. }
    destruct (H ins s) as (_ & (new & T & F) & D). simpl in *.
    exists new. rewrite Forall_forall in F.
    split; [done|]. split; [|split; [|split]].
    + intros i f v Hin. specialize (F _ Hin). simpl in F.
      split; [done|]. by apply updatable_not_id.
    + intros doc Hin. exact (F _ Hin).
    + intros i Hin. exact (F _ Hin).
    + exact D.
Qed.

(** ** What [print_contact] shows *)

Lemma run_print_contact d ins s :
  match contact_display d with
  | Some text => print_contact d ins s = Ok tt ins (logs [Print text] s)
  | None => ∃ e, print_contact d ins s = Raise e ins s
  end.
Proof.
  unfold contact_display, print_contact, bind, getitem.
  destruct (d !! ID_KEY); simpl; [|by eexists].
  destruct (d !! NAME_KEY) as [[n|n]|]; simpl; [by eexists| |by eexists].
  destruct (d !! AGE_KEY); simpl; [|by eexists].
  destruct (d !! PHONE_KEY); simpl; [|by eexists].
  destruct (d !! EMAIL_KEY); simpl; [|by eexists].
  reflexivity.
Qed.

Lemma print_contact_display d text ins s :
  contact_display d = Some text →
  print_contact d ins s = Ok tt ins (logs [Print text] s).
Proof.
  intros H. pose proof (run_print_contact d ins s) as R. by rewrite H in R.
Qed.

Lemma contact_display_id d text :
  contact_display d = Some text → is_Some (d !! ID_KEY).
Proof. unfold contact_display. destruct (d !! ID_KEY); [eauto|done]. Qed.

Lemma display_new_contact i n a p e :
  contact_display (new_contact i n a p e)
  = Some (contact_text (VInt i) (capitalize n) (VInt a) (VStr p) (VStr e)).
Proof. reflexivity. Qed.

Lemma run_find_one key v ins s :
  storable v = true →
  find_one key v ins s
  = Ok (snd <$> first_match key v (db_contacts s)) ins (logs [Call (FindOne key v)] s).
Proof. intros H. unfold find_one, bind, emit. simpl. by rewrite H. Qed.

Lemma truthy_found key v docs pos c :
  first_match key v docs = Some (pos, c) → truthy (Some c) = true.
Proof.
  intros H. apply first_match_Some in H as (_ & H & _). simpl.
  apply negb_true_iff, bool_decide_eq_false. intros ->.
  by rewrite lookup_empty in H.
Qed.

Lemma run_delete_one i ins s :
  storable i = true →
  delete_one i ins s
  = Ok tt ins (logs [Call (DeleteOne i)] (set_db (without i (db_contacts s)) s)).
Proof.
  intros H. unfold delete_one, bind, emit, without. simpl. rewrite H. simpl.
  destruct (first_match ID_KEY i (db_contacts s)) as [[pos d]|]; [done|].
  by destruct s.
Qed.

Lemma py_in_yes x : py_in x ["y"; "yes"] = true ↔ x = "y" ∨ x = "yes".
Proof.
  unfold py_in. rewrite bool_decide_eq_true, !elem_of_cons, elem_of_nil.
  tauto.
Qed.

(** ** Deleting *)

Lemma delete_found l ans rest s pos c text i :
  first_match NAME_KEY (VStr l) (db_contacts s) = Some (pos, c) →
  contact_display c = Some text → c !! ID_KEY = Some i →
  storable i = true →
  delete (l :: ans :: rest) s
  = if py_in (lower ans) ["y"; "yes"]
    then Ok tt rest
           (logs (delete_shown l text
                  ++ [Call (DeleteOne i); Print "Contact deleted."])
              (set_db (without i (db_contacts s)) s))
    else Ok tt rest (logs (delete_shown l text) s).
Proof.
  intros Hf Hd Hi Si. unfold delete. step.
  step_with run_find_one. rewrite db_logs, Hf.
  change (snd <$> Some (pos, c)) with (Some c). cbv iota.
  rewrite (truthy_found _ _ _ _ _ Hf). cbn [negb].
  step. step_with print_contact_display. do 2 step.
  destruct (py_in (lower ans) ["y"; "yes"]).
  - unfold getitem. rewrite Hi. step. step_with run_delete_one.
    rewrite run_print. by norm_logs.
  - rewrite run_ret. by norm_logs.
Qed.

(** C10.  Once [delete] has found and shown a contact, [delete_one] is
    called exactly when the answer, lower-cased, is "y" or "yes", and then
    on the [_id] of the contact shown; on any other answer the flow returns
    with the collection as it was. *)
Theorem delete_only_on_yes l ans rest s pos c text i :
  first_match NAME_KEY (VStr l) (db_contacts s) = Some (pos, c) →
  contact_display c = Some text → c !! ID_KEY = Some i →
  storable i = true →
  ∃ new s',
    delete (l :: ans :: rest) s = Ok tt rest s'
    ∧ trace s' = trace s ++ delete_shown l text ++ new
    ∧ ((∃ j, Call (DeleteOne j) ∈ new) ↔ lower ans = "y" ∨ lower ans = "yes")
    ∧ (lower ans = "y" ∨ lower ans = "yes" →
       new = [Call (DeleteOne i); Print "Contact deleted."]
       ∧ db_contacts s' = without i (db_contacts s))
    ∧ (¬ (lower ans = "y" ∨ lower ans = "yes") → new = [] ∧ db_contacts s' = db_contacts s).
Proof.
  intros Hf Hd Hi Si.
  pose proof (delete_found l ans rest s pos c text i Hf Hd Hi Si) as R.
  destruct (py_in (lower ans) ["y"; "yes"]) eqn:E.
  - apply py_in_yes in E.
    exists [Call (DeleteOne i); Print "Contact deleted."]. eexists.
    split; [exact R|]. split; [reflexivity|]. split; [|split].
    + split; [done|]. intros _. exists i. apply list_elem_of_here.
    + done.
    + tauto.
  - assert (¬ (lower ans = "y" ∨ lower ans = "yes")) as N.
    { rewrite <- py_in_yes, E. discriminate. }
    exists []. eexists.
    split; [exact R|]. split; [by rewrite app_nil_r|]. split; [|split].
    + split; [|tauto]. intros [j Hj]. by apply elem_of_nil in Hj.
    + tauto.
    + done.
Qed.

(** ** Updating *)

Lemma run_update_one i f v ins s :
  storable i && storable v = true →
  update_one i f v ins s
  = Ok (update_reply i f v (db_contacts s)) ins
       (logs [Call (UpdateOne i f v)] (set_db (updated i f v (db_contacts s)) s)).
Proof.
  intros H. unfold update_one, bind, emit, updated, update_reply. simpl.
  rewrite H. simpl.
  destruct (first_match ID_KEY i (db_contacts s)) as [[pos d]|]; [done|].
  by destruct s.
Qed.

Lemma update_reply_acknowledged i f v docs :
  upd_acknowledged (update_reply i f v docs) = true.
Proof.
  unfold update_reply. by destruct (first_match ID_KEY i docs) as [[pos d]|].
Qed.

(** Every [update] that returns after finding a contact has shown that
    contact, asked for a field and a value at the console, and made one
    [update_one] call, filtered by the [_id] of the contact shown. *)
Lemma update_Ok_inv l rest s pos c ins' s' :
  first_match NAME_KEY (VStr (lower l)) (db_contacts s) = Some (pos, c) →
  update (l :: rest) s = Ok tt ins' s' →
  ∃ text i f v asked told,
    contact_display c = Some text ∧ c !! ID_KEY = Some i ∧ updatable f
    ∧ Forall console_only asked ∧ Forall console_only told
    ∧ trace s' = trace s ++ update_shown (lower l) text ++ asked
                 ++ [Call (UpdateOne i f v)] ++ told
    ∧ db_contacts s' = updated i f v (db_contacts s).
Proof.
  intros Hf. unfold update. step. step_with run_find_one.
  rewrite db_logs, Hf. change (snd <$> Some (pos, c)) with (Some c).
  cbv iota. rewrite (truthy_found _ _ _ _ _ Hf). cbn [negb]. step.
  pose proof (run_print_contact c rest
    (logs [Print SEP19] (logs [Call (FindOne NAME_KEY (VStr (lower l)))]
      (logs [Prompt "Enter name to search: "] s)))) as Rp.
  destruct (contact_display c) as [text|] eqn:Hd;
    [|destruct Rp as [e Rp]; by erewrite bind_Raise by exact Rp].
  erewrite bind_Ok by exact Rp. step. norm_logs.
  match goal with |- context [bind field_loop _ ?i ?t] =>
    pose proof (respects_field_loop console_only eq
                  (λ _, I) (λ _, I) i t) as Rf;
    pose proof (field_loop_updatable i t) as Uf;
    unfold bind at 1; destruct (field_loop i t) as [f ins1 s1|] eqn:Ef
  end; [|done].
  specialize (Uf _ _ _ eq_refl).
  destruct Rf as (_ & (asked1 & T1 & F1) & D1). simpl in T1, D1.
  pose proof (respects_value_loop console_only eq f
                (λ _, I) (λ _, I) ins1 s1) as Rv.
  unfold bind at 1. destruct (value_loop f ins1 s1) as [v ins2 s2|] eqn:Ev;
    [|done].
  destruct Rv as (_ & (asked2 & T2 & F2) & D2). simpl in T2, D2.
  destruct (contact_display_id _ _ Hd) as [i Hi].
  unfold getitem. rewrite Hi. step.
  destruct (storable i && storable v) eqn:St.
  - step_with run_update_one. rewrite update_reply_acknowledged.
    step. rewrite run_print. intros [= <- <-].
    exists text, i, f, v, (asked1 ++ asked2). eexists.
    split; [done|]. split; [done|]. split; [done|].
    split; [by apply Forall_app|].
    assert (∀ X Y : Prop, Y → (Y → X) → X ∧ Y) as later by tauto.
    apply later; [split|intros [HT _]].
    + simpl. rewrite T2, T1. rewrite <- !app_assoc. reflexivity.
    + simpl. by rewrite <- D2, <- D1.
    + by repeat constructor.
  - unfold update_one, bind, emit. simpl. rewrite St. simpl. done.
Qed.

Lemma unique_ids_alt docs :
  unique_ids docs ↔
  ∀ i j v, ids docs !! i = Some (Some v) → ids docs !! j = Some (Some v) → i = j.
Proof.
  unfold unique_ids, ids. split.
  - intros H i j v. rewrite !list_lookup_fmap.
    destruct (docs !! i) as [d1|] eqn:E1; [|done].
    destruct (docs !! j) as [d2|] eqn:E2; [|done]. simpl.
    intros [= H1] [= H2]. eauto.
  - intros H i j d1 d2 v E1 E2 H1 H2. apply (H i j v).
    + by rewrite list_lookup_fmap, E1; simpl; rewrite H1.
    + by rewrite list_lookup_fmap, E2; simpl; rewrite H2.
Qed.

Lemma unique_ids_same_ids docs docs' :
  ids docs' = ids docs → unique_ids docs → unique_ids docs'.
Proof. rewrite !unique_ids_alt. by intros ->. Qed.

Lemma unique_ids_insert docs doc i :
  doc !! ID_KEY = Some i → first_match ID_KEY i docs = None →
  unique_ids docs → unique_ids (docs ++ [doc]).
Proof.
  intros Hi Hn Hu a b d1 d2 v Ha Hb H1 H2.
  rewrite first_match_None in Hn.
  apply lookup_app_Some in Ha as [Ha|[La Ha]];
    apply lookup_app_Some in Hb as [Hb|[Lb Hb]].
  - eauto.
  - apply list_lookup_singleton_Some in Hb as [_ <-].
    exfalso. apply (Hn d1); [by eapply list_elem_of_lookup_2|congruence].
  - apply list_lookup_singleton_Some in Ha as [_ <-].
    exfalso. apply (Hn d2); [by eapply list_elem_of_lookup_2|congruence].
  - apply list_lookup_singleton_Some in Ha as [Ea _].
    apply list_lookup_singleton_Some in Hb as [Eb _]. lia.
Qed.

Lemma unique_ids_delete docs pos :
  unique_ids docs → unique_ids (base.delete pos docs).
Proof.
  intros Hu a b d1 d2 v Ha Hb H1 H2.
  rewrite list_lookup_delete in Ha, Hb.
  destruct (decide (a < pos)%nat), (decide (b < pos)%nat).
  - eauto.
  - assert (a = S b) by eauto. lia.
  - assert (S a = b) by eauto. lia.
  - assert (S a = S b) by eauto. lia.
Qed.

Lemma updated_unique docs pos c i f v :
  unique_ids docs → docs !! pos = Some c → c !! ID_KEY = Some i →
  updated i f v docs = <[pos := <[f := v]> c]> docs.
Proof.
  intros Hu Hp Hi. unfold updated.
  by rewrite (unique_ids_first_match _ _ _ _ Hu Hp Hi).
Qed.

Lemma without_unique docs pos c i :
  unique_ids docs → docs !! pos = Some c → c !! ID_KEY = Some i →
  without i docs = base.delete pos docs.
Proof.
  intros Hu Hp Hi. unfold without.
  by rewrite (unique_ids_first_match _ _ _ _ Hu Hp Hi).
Qed.


(** C9.  The mutation is aimed at the document that was shown.  With the
    [_id]s of the collection distinct, an [update] that returns has
    printed the first document carrying the name and has changed that very
    document, by an [update_one] filtered on its [_id]; a confirmed
    [delete] has printed the first document carrying the name and has
    removed that very document, by a [delete_one] filtered on its [_id].
    Other documents, of the same name or not, stay. *)
Theorem mutation_hits_the_shown_contact :
  (∀ l rest s pos c ins' s',
     unique_ids (db_contacts s) →
     first_match NAME_KEY (VStr (lower l)) (db_contacts s) = Some (pos, c) →
     update (l :: rest) s = Ok tt ins' s' →
     ∃ text i f v asked told,
       contact_display c = Some text ∧ c !! ID_KEY = Some i
       ∧ Forall console_only asked ∧ Forall console_only told
       ∧ trace s' = trace s ++ update_shown (lower l) text ++ asked
                    ++ [Call (UpdateOne i f v)] ++ told
       ∧ db_contacts s' = <[pos := <[f := v]> c]> (db_contacts s)
       ∧ ∀ j, j ≠ pos → db_contacts s' !! j = db_contacts s !! j)
  ∧ (∀ l ans rest s pos c text i,
       unique_ids (db_contacts s) →
       first_match NAME_KEY (VStr l) (db_contacts s) = Some (pos, c) →
       contact_display c = Some text → c !! ID_KEY = Some i →
       storable i = true →
       lower ans = "y" ∨ lower ans = "yes" →
       delete (l :: ans :: rest) s
       = Ok tt rest
           (logs (delete_shown l text
                  ++ [Call (DeleteOne i); Print "Contact deleted."])
              (set_db (base.delete pos (db_contacts s)) s))).
Proof.
  split.
  - intros l rest s pos c ins' s' Hu Hf Hr.
    destruct (update_Ok_inv _ _ _ _ _ _ _ Hf Hr)
      as (text & i & f & v & asked & told & Hd & Hi & Uf & F1 & F2 & T & D).
    apply first_match_Some in Hf as (Hp & _ & _).
    rewrite (updated_unique _ _ _ _ _ _ Hu Hp Hi) in D.
    exists text, i, f, v, asked, told. repeat split; try done.
    intros j Hj. rewrite D. by apply list_lookup_insert_ne.
  - intros l ans rest s pos c text i Hu Hf Hd Hi Si Hy.
    rewrite (delete_found _ _ _ _ _ _ _ _ Hf Hd Hi Si).
    apply py_in_yes in Hy. rewrite Hy.
    apply first_match_Some in Hf as (Hp & _ & _).
    by rewrite (without_unique _ _ _ _ Hu Hp Hi).
Qed.

(** ** Listing *)

Lemma run_show_each contacts texts ins s :
  Forall2 (λ c t, contact_display c = Some t) contacts texts →
  show_each contacts ins s = Ok tt ins (logs (listing texts) s).
Proof.
  induction 1 as [|c t cs ts Hc Hcs IH] in s |- *.
  - simpl. by rewrite logs_nil.
  - simpl show_each. step. step_with print_contact_display.
    rewrite IH. by norm_logs.
Qed.

Lemma run_count_documents ins s :
  count_documents ins s
  = Ok (Z.of_nat (length (db_contacts s))) ins (logs [Call CountDocuments] s).
Proof. reflexivity. Qed.

Lemma run_find ins s : find ins s = Ok (db_contacts s) ins (logs [Call Find] s).
Proof. reflexivity. Qed.

Lemma elem_of_without i docs d :
  unique_ids docs →
  d ∈ without i docs ↔ d ∈ docs ∧ d !! ID_KEY ≠ Some i.
Proof.
  intros Hu. unfold without.
  destruct (first_match ID_KEY i docs) as [[pos d0]|] eqn:E.
  - apply first_match_Some in E as (Hp & Hi & _).
    rewrite !list_elem_of_lookup. split.
    + intros [j Hj]. rewrite list_lookup_delete in Hj.
      destruct (decide (j < pos)%nat).
      * split; [eauto|]. intros Hd. assert (j = pos) by eauto. lia.
      * split; [eauto|]. intros Hd. assert (S j = pos) by eauto. lia.
    + intros [[j Hj] Hn].
      assert (j ≠ pos) by (intros ->; congruence).
      destruct (decide (j < pos)%nat).
      * exists j. by rewrite list_lookup_delete_lt.
      * exists (Nat.pred j). rewrite list_lookup_delete_ge by lia.
        by replace (S (Nat.pred j)) with j by lia.
  - rewrite first_match_None in E. split; [|by intros [? _]].
    intros Hd. split; [done|by apply E].
Qed.

Lemma show_all_empty ins s :
  db_contacts s = [] →
  show_all ins s
  = Ok tt ins
      (logs [Call CountDocuments; Print SEP29; Print "No data found.";
             Print SEP29] s).
Proof.
  intros He. unfold show_all. step_with run_count_documents.
  rewrite He. simpl. do 2 step. rewrite run_print. by norm_logs.
Qed.

Lemma show_all_listing ins s texts :
  db_contacts s ≠ [] →
  Forall2 (λ c t, contact_display c = Some t) (db_contacts s) texts →
  show_all ins s
  = Ok tt ins
      (logs ([Call CountDocuments; Call Find] ++ listing texts
             ++ [Print SEP29]) s).
Proof.
  intros Hne Hd. unfold show_all. step_with run_count_documents.
  destruct (db_contacts s) as [|c cs] eqn:E; [done|].
  replace (Z.of_nat (length (c :: cs)) =? 0) with false
    by (symmetry; apply Z.eqb_neq; simpl length; lia).
  step_with run_find. rewrite db_logs, E.
  step_with run_show_each. rewrite run_print. by norm_logs.
Qed.

(** C7.  On an empty collection [show_all] counts the documents, prints
    "No data found." between two rules and shows no contact.  On a
    non-empty collection it prints every stored document once, each after
    a rule, and nothing else but the closing rule.  The stored documents
    are those inserted and not deleted: a successful [insert_one] adds
    its document to the collection and [delete_one] removes the document
    with the given [_id] and no other. *)
Theorem show_all_lists_the_collection :
  (∀ ins s,
     db_contacts s = [] →
     show_all ins s
     = Ok tt ins
         (logs [Call CountDocuments; Print SEP29; Print "No data found.";
                Print SEP29] s))
  ∧ (∀ ins s texts,
       db_contacts s ≠ [] →
       Forall2 (λ c t, contact_display c = Some t) (db_contacts s) texts →
       show_all ins s
       = Ok tt ins
           (logs ([Call CountDocuments; Call Find] ++ listing texts
                  ++ [Print SEP29]) s))
  ∧ (∀ doc i ins s,
       encodable doc = true → doc !! ID_KEY = Some i →
       first_match ID_KEY i (db_contacts s) = None →
       ∃ r s', insert_one doc ins s = Ok r ins s'
               ∧ ∀ d, d ∈ db_contacts s' ↔ d ∈ db_contacts s ∨ d = doc)
  ∧ (∀ i ins s,
       storable i = true → unique_ids (db_contacts s) →
       ∃ s', delete_one i ins s = Ok tt ins s'
             ∧ ∀ d, d ∈ db_contacts s' ↔ d ∈ db_contacts s ∧ d !! ID_KEY ≠ Some i).
Proof.
  split; [exact show_all_empty|]. split; [exact show_all_listing|]. split.
  - intros doc i ins s He Hi Hn. do 2 eexists.
    split; [by apply insert_one_fresh|].
    intros d. simpl. rewrite elem_of_app, list_elem_of_singleton. tauto.
  - intros i ins s Si Hu. eexists. split; [by apply run_delete_one|].
    intros d. simpl. by apply elem_of_without.
Qed.

(** ** Creating, then searching *)

Lemma create_contact_fresh i n a p e rest s idv agev :
  int i = Some idv → int a = Some agev →
  storable (VInt idv) = true → storable (VInt agev) = true →
  first_match ID_KEY (VInt idv) (db_contacts s) = None →
  let doc := new_contact idv (lower n) agev (lower p) (lower e) in
  create_contact (i :: n :: a :: p :: e :: rest) s
  = Ok tt rest
      (logs (create_prompts
             ++ [Call (InsertOne doc);
                 Print ("Successfully created with id: " +:+ of_int idv)])
         (set_db (db_contacts s ++ [doc]) s)).
Proof.
  intros Hi Ha Si Sa Hn doc. unfold create_contact.
  step_with int_loop_good. step. step_with int_loop_good. do 2 step.
  unfold store_contact, try_except. fold doc.
  erewrite bind_Ok.
  2: { apply (insert_one_fresh doc (VInt idv)).
       - by apply storable_encodable_new_contact.
       - apply new_contact_id.
       - exact Hn. }
  cbn [ins_acknowledged inserted_id format_value].
  rewrite run_print. by norm_logs.
Qed.

Lemma search_one_found q rest s pos c text :
  first_match NAME_KEY (VStr (lower q)) (db_contacts s) = Some (pos, c) →
  contact_display c = Some text →
  search_one (q :: rest) s
  = Ok tt rest (logs (search_shown (lower q) text) s).
Proof.
  intros Hf Hd. unfold search_one. step. step_with run_find_one.
  rewrite db_logs, Hf. change (snd <$> Some (pos, c)) with (Some c).
  cbv iota. rewrite (truthy_found _ _ _ _ _ Hf). step.
  step_with print_contact_display. rewrite run_print. by norm_logs.
Qed.

(** C2, as stated, fails twice.  A phone number typed with capitals comes
    back lower-cased, so the record found differs from the one entered in
    the phone field as well.  And when an older contact has the same name,
    the search returns the older contact, not the one just inserted. *)
Lemma find_after_insert_differs :
  (∃ s' found after,
     create_contact ["1"; "Ana"; "30"; "555-ABC"; "Ana@X.com"] (State [] [])
     = Ok tt [] s'
     ∧ find_one NAME_KEY (VStr (lower "Ana")) [] s' = Ok (Some found) [] after
     ∧ found ≠ claimed_record 1 "Ana" 30 "555-ABC" "Ana@X.com"
     ∧ found !! PHONE_KEY = Some (VStr "555-abc"))
  ∧ (∃ s' found after,
       create_contact ["2"; "Ana"; "41"; "555-2222"; "ana2@x.com"]
         (State [new_contact 1 "ana" 30 "555-1111" "ana@x.com"] [])
       = Ok tt [] s'
       ∧ find_one NAME_KEY (VStr (lower "Ana")) [] s'
         = Ok (Some found) [] after
       ∧ found ≠ claimed_record 2 "Ana" 41 "555-2222" "ana2@x.com"
       ∧ found !! ID_KEY = Some (VInt 1)).
Proof.
  split.
  - do 3 eexists. split; [vm_compute; reflexivity|].
    split; [vm_compute; reflexivity|]. split; [|vm_compute; reflexivity].
    intros H. apply (f_equal (λ d : document, d !! PHONE_KEY)) in H.
    vm_compute in H. discriminate.
  - do 3 eexists. split; [vm_compute; reflexivity|].
    split; [vm_compute; reflexivity|]. split; [|vm_compute; reflexivity].
    intros H. apply (f_equal (λ d : document, d !! ID_KEY)) in H.
    vm_compute in H. discriminate.
Qed.

(** C2, amended.  For an id and an age that parse and fit in 64 bits, an
    id not yet stored and a name that no stored contact has, [create_contact]
    appends the record with name, phone and email lower-cased, and a search
    for that name in any casing finds and prints exactly this record. *)
Theorem insert_then_find i n a p e rest q rest' s idv agev :
  int i = Some idv → int a = Some agev →
  storable (VInt idv) = true → storable (VInt agev) = true →
  first_match ID_KEY (VInt idv) (db_contacts s) = None →
  first_match NAME_KEY (VStr (lower n)) (db_contacts s) = None →
  lower q = lower n →
  let doc := new_contact idv (lower n) agev (lower p) (lower e) in
  ∃ s',
    create_contact (i :: n :: a :: p :: e :: rest) s = Ok tt rest s'
    ∧ db_contacts s' = db_contacts s ++ [doc]
    ∧ find_one NAME_KEY (VStr (lower q)) rest' s'
      = Ok (Some doc) rest' (logs [Call (FindOne NAME_KEY (VStr (lower q)))] s')
    ∧ search_one (q :: rest') s'
      = Ok tt rest'
          (logs (search_shown (lower n)
                   (contact_text (VInt idv) (capitalize (lower n)) (VInt agev)
                      (VStr (lower p)) (VStr (lower e)))) s').
Proof.
  intros Hi Ha Si Sa Hid Hname Hq doc.
  eexists. split; [by apply create_contact_fresh|]. subst doc.
  assert (first_match NAME_KEY (VStr (lower q))
            (db_contacts s ++ [new_contact idv (lower n) agev (lower p) (lower e)])
          = Some (length (db_contacts s),
                  new_contact idv (lower n) agev (lower p) (lower e))) as Hf.
  { rewrite Hq. apply first_match_app_fresh; [done|]. apply new_contact_name. }
  split; [done|]. split.
  - rewrite run_find_one by done. rewrite ?db_logs. simpl db_contacts.
    by rewrite Hf.
  - match goal with |- search_one _ ?t = _ =>
      pose proof (search_one_found q rest' t _ _ _ Hf
                    (display_new_contact _ _ _ _ _)) as R
    end.
    rewrite Hq in R. exact R.
Qed.

(** ** The name typed in [delete] *)

(** Any piece of a flow reads the console from the front and only adds to
    the transcript. *)
Ltac any_flow :=
  repeat first
    [ exact I | exact anything_preorder
    | apply respects_ret | apply respects_raise
    | apply respects_print | apply respects_input
    | apply respects_print_contact | apply respects_getitem
    | apply respects_field_loop | apply respects_value_loop
    | apply respects_not_found
    | apply respects_update_one | apply respects_delete_one
    | apply respects_bind; [| |intros ?]
    | match goal with
      | |- respects _ _ (if ?b then _ else _) => destruct b
      | |- respects _ _ (match ?o with Some _ => _ | None => _ end) =>
          destruct o
      end
    | intros; exact I ].

Lemma search_one_key : looks_up_with search_one "Enter name to search: " lower.
Proof.
  intros l rest s. unfold search_one. step. step_with run_find_one.
  match goal with |- context [outcome (?T ?i ?t)] =>
    assert (respects (λ _, True) (λ _ _, True) T) as R by any_flow;
    destruct (R i t) as (_ & (new & Tn & _) & _)
  end.
  exists new. rewrite Tn. simpl. by rewrite <- !app_assoc.
Qed.

Lemma update_key : looks_up_with update "Enter name to search: " lower.
Proof.
  intros l rest s. unfold update. step. step_with run_find_one.
  match goal with |- context [outcome (?T ?i ?t)] =>
    assert (respects (λ _, True) (λ _ _, True) T) as R by any_flow;
    destruct (R i t) as (_ & (new & Tn & _) & _)
  end.
  exists new. rewrite Tn. simpl. by rewrite <- !app_assoc.
Qed.

Lemma delete_key : looks_up_with delete "Enter name to delete: " (λ l, l).
Proof.
  intros l rest s. unfold delete. step. step_with run_find_one.
  match goal with |- context [outcome (?T ?i ?t)] =>
    assert (respects (λ _, True) (λ _ _, True) T) as R by any_flow;
    destruct (R i t) as (_ & (new & Tn & _) & _)
  end.
  exists new. rewrite Tn. simpl. by rewrite <- !app_assoc.
Qed.

(** C3 holds of [search_one] and [update] and fails in [delete], where the
    name is looked up as typed.  A contact stored as "ana" is found by
    [search_one] and by [update] when "Ana" is typed, and is reported as not
    found by [delete]. *)
Theorem delete_looks_up_the_name_as_typed (rest : list string) :
  let s := State [new_contact 1 "ana" 30 "555-1111" "ana@x.com"] [] in
  delete ("Ana" :: rest) s
  = Ok tt rest
      (logs [Prompt "Enter name to delete: ";
             Call (FindOne NAME_KEY (VStr "Ana"));
             Print "Contact Ana not found, please try again."] s)
  ∧ search_one ("Ana" :: rest) s
    = Ok tt rest
        (logs (search_shown "ana"
                 (contact_text (VInt 1) "Ana" (VInt 30) (VStr "555-1111")
                    (VStr "ana@x.com"))) s)
  ∧ update ["Ana"] s
    = Raise EOFError []
        (logs (update_shown "ana"
                 (contact_text (VInt 1) "Ana" (VInt 30) (VStr "555-1111")
                    (VStr "ana@x.com"))
               ++ [Prompt "What field do you want to update? "]) s)
  ∧ looks_up_with search_one "Enter name to search: " lower
  ∧ looks_up_with update "Enter name to search: " lower
  ∧ looks_up_with delete "Enter name to delete: " (λ l, l).
Proof.
  intros s. split; [reflexivity|]. split; [reflexivity|].
  split; [reflexivity|].
  split; [exact search_one_key|]. split; [exact update_key|exact delete_key].
Qed.

(** ** The value loop of [update] *)

Lemma value_loop_never_breaks f ins s :
  py_in f [AGE_KEY] = false →
  value_loop f ins s
  = Raise EOFError []
      (logs (replicate (S (length ins)) (Prompt "Enter the value: ")) s).
Proof.
  intros H. revert s. induction ins as [|l ins IH]; intros s.
  - reflexivity.
  - simpl value_loop. rewrite H, IH. by norm_logs.
Qed.

Lemma field_loop_accepts fl rest s :
  py_in (strip (lower fl)) [NAME_KEY; AGE_KEY; PHONE_KEY; EMAIL_KEY] = true →
  field_loop (fl :: rest) s
  = Ok (strip (lower fl)) rest
       (logs [Prompt "What field do you want to update? "] s).
Proof.
  intros H. simpl field_loop.
  assert (updatable (strip (lower fl))) as U
    by (by apply bool_decide_eq_true in H).
  unfold updatable in U. rewrite !elem_of_cons, elem_of_nil in U.
  destruct U as [->|[->|[->|[->|[]]]]]; reflexivity.
Qed.

Lemma update_stuck l fl values s pos c text :
  first_match NAME_KEY (VStr (lower l)) (db_contacts s) = Some (pos, c) →
  contact_display c = Some text →
  py_in (strip (lower fl)) [NAME_KEY; PHONE_KEY; EMAIL_KEY] = true →
  update (l :: fl :: values) s
  = Raise EOFError []
      (logs (update_shown (lower l) text
             ++ [Prompt "What field do you want to update? "]
             ++ replicate (S (length values)) (Prompt "Enter the value: ")) s).
Proof.
  intros Hf Hd Hfl. unfold update. step. step_with run_find_one.
  rewrite db_logs, Hf. change (snd <$> Some (pos, c)) with (Some c).
  cbv iota. rewrite (truthy_found _ _ _ _ _ Hf). cbn [negb]. step.
  step_with print_contact_display. step.
  assert (updatable (strip (lower fl)) ∧ strip (lower fl) ≠ AGE_KEY) as [U N].
  { apply bool_decide_eq_true in Hfl.
    rewrite !elem_of_cons, elem_of_nil in Hfl. unfold updatable.
    rewrite !elem_of_cons, elem_of_nil.
    destruct Hfl as [->|[->|[->|[]]]]; split; auto; discriminate. }
  erewrite bind_Ok.
  2: { apply field_loop_accepts. by apply bool_decide_eq_true. }
  erewrite bind_Raise.
  2: { apply value_loop_never_breaks. apply bool_decide_eq_false.
       rewrite list_elem_of_singleton. exact N. }
  by norm_logs.
Qed.

(** C1 fails on the code: for name, phone and email the value loop has no
    [break].  With the contact "ana" stored, choosing any of the three
    fields makes [update] ask "Enter the value: " for every line that
    follows and end in [EOFError] when the console is exhausted; no
    [update_one] is called and the collection is untouched.  The age
    branch does complete. *)
Theorem update_of_a_text_field_never_stores (values : list string) :
  let s := State [new_contact 1 "ana" 30 "555-1111" "ana@x.com"] [] in
  let text := contact_text (VInt 1) "Ana" (VInt 30) (VStr "555-1111")
                (VStr "ana@x.com") in
  let stuck := logs (update_shown "ana" text
                     ++ [Prompt "What field do you want to update? "]
                     ++ replicate (S (length values))
                          (Prompt "Enter the value: ")) s in
  update ("ana" :: "name" :: values) s = Raise EOFError [] stuck
  ∧ update ("ana" :: "phone" :: values) s = Raise EOFError [] stuck
  ∧ update ("ana" :: "email" :: values) s = Raise EOFError [] stuck
  ∧ db_contacts stuck = db_contacts s
  ∧ (∀ i f v, Call (UpdateOne i f v) ∉ trace stuck)
  ∧ ∃ after, update ["ana"; "age"; "31"] s = Ok tt [] after
             ∧ db_contacts after = [new_contact 1 "ana" 31 "555-1111" "ana@x.com"].
Proof.
  intros s text stuck.
  assert (first_match NAME_KEY (VStr (lower "ana")) (db_contacts s)
          = Some (0%nat, new_contact 1 "ana" 30 "555-1111" "ana@x.com")) as Hf
    by reflexivity.
  split; [|split; [|split; [|split; [|split]]]].
  - by apply (update_stuck "ana" "name" values s _ _ text Hf).
  - by apply (update_stuck "ana" "phone" values s _ _ text Hf).
  - by apply (update_stuck "ana" "email" values s _ _ text Hf).
  - reflexivity.
  - intros i f v. unfold stuck. rewrite trace_logs. simpl trace.
    rewrite app_nil_l, !elem_of_app, elem_of_replicate. unfold update_shown.
    rewrite !elem_of_cons, !elem_of_nil.
    intros [H|[H|H]]; [|destruct H as [H|[]]; discriminate
                       |destruct H as [H _]; discriminate].
    destruct H as [H|[H|[H|[H|[H|[]]]]]]; discriminate.
  - eexists. split; [vm_compute; reflexivity|]. vm_compute. reflexivity.
Qed.

(** ** Lines that are not integers *)

Lemma int_loop_retries prompt complaint bads l n rest s :
  Forall (λ b, int b = None) bads → int l = Some n →
  int_loop prompt complaint (bads ++ l :: rest) s
  = Ok n rest (logs (retries prompt complaint bads ++ [Prompt prompt]) s).
Proof.
  intros Hb Hl. revert s. induction Hb as [|b bads Hb _ IH]; intros s.
  - by apply int_loop_good.
  - simpl app. rewrite int_loop_bad by done. rewrite IH. by norm_logs.
Qed.

Lemma value_loop_retries bads l n rest s :
  Forall (λ b, int (lower b) = None) bads → int (lower l) = Some n →
  value_loop AGE_KEY (bads ++ l :: rest) s
  = Ok (VInt n) rest
       (logs (retries "Enter the value: "
                "Age must be a number. Please try again." bads
              ++ [Prompt "Enter the value: "]) s).
Proof.
  intros Hb Hl. revert s. induction Hb as [|b bads Hb _ IH]; intros s.
  - simpl. by rewrite Hl.
  - simpl app. simpl value_loop. rewrite Hb. change (py_in _ _) with true.
    cbv iota. rewrite IH. by norm_logs.
Qed.

Lemma run_print_menu ins s : print_menu ins s = Ok tt ins (logs menu_lines s).
Proof. unfold print_menu. do 6 step. rewrite run_print. by norm_logs. Qed.

Lemma menu_turn_not_a_number bad ins s :
  int bad = None →
  menu_turn (bad :: ins) s
  = Ok false ins
      (logs (menu_lines
             ++ [Prompt "Select option> ";
                 Print "*** The option must be a number. Please try again. ***"])
         s).
Proof.
  intros H. unfold menu_turn. step_with run_print_menu. step.
  unfold dispatch. rewrite H. step. rewrite run_ret. by norm_logs.
Qed.

Lemma main_not_a_number bad ins s :
  int bad = None →
  main (bad :: ins) s
  = main ins
      (logs (menu_lines
             ++ [Prompt "Select option> ";
                 Print "*** The option must be a number. Please try again. ***"])
         s).
Proof.
  intros H. unfold main. simpl length.
  change (main_loop (S (S (length ins))) (bad :: ins) s)
    with (match menu_turn (bad :: ins) s with
          | Ok true ins' s' =>
              Some (print "Thanks for using this app! Cya!" ins' s')
          | Ok false ins' s' => main_loop (S (length ins)) ins' s'
          | Raise e ins' s' => Some (Raise e ins' s')
          end).
  by rewrite menu_turn_not_a_number.
Qed.

Lemma menu_turn_exit l rest s :
  int l = Some EXIT_OPT →
  menu_turn (l :: rest) s
  = Ok true rest (logs (menu_lines ++ [Prompt "Select option> "]) s).
Proof.
  intros H. unfold menu_turn. step_with run_print_menu. step.
  unfold dispatch. rewrite H. simpl. rewrite run_ret. by norm_logs.
Qed.

Lemma menu_turn_eof s :
  menu_turn [] s
  = Raise EOFError [] (logs (menu_lines ++ [Prompt "Select option> "]) s).
Proof.
  unfold menu_turn. step_with run_print_menu.
  erewrite bind_Raise by apply run_input_eof. by norm_logs.
Qed.

Lemma main_exit l rest s :
  int l = Some EXIT_OPT →
  main (l :: rest) s
  = Some (Ok tt rest
            (logs (menu_lines
                   ++ [Prompt "Select option> ";
                       Print "Thanks for using this app! Cya!"]) s)).
Proof.
  intros H. unfold main. simpl length.
  change (main_loop (S (S (length rest))) (l :: rest) s)
    with (match menu_turn (l :: rest) s with
          | Ok true ins' s' =>
              Some (print "Thanks for using this app! Cya!" ins' s')
          | Ok false ins' s' => main_loop (S (length rest)) ins' s'
          | Raise e ins' s' => Some (Raise e ins' s')
          end).
  rewrite (menu_turn_exit l rest s H), run_print. by norm_logs.
Qed.

Lemma main_eof s :
  main [] s
  = Some (Raise EOFError []
            (logs (menu_lines ++ [Prompt "Select option> "]) s)).
Proof.
  unfold main. simpl length.
  change (main_loop 1 [] s)
    with (match menu_turn [] s with
          | Ok true ins' s' =>
              Some (print "Thanks for using this app! Cya!" ins' s')
          | Ok false ins' s' => main_loop 0 ins' s'
          | Raise e ins' s' => Some (Raise e ins' s')
          end).
  by rewrite menu_turn_eof.
Qed.

Lemma main_retries bads ins s :
  Forall (λ b, int b = None) bads →
  main (bads ++ ins) s = main ins (logs (menu_retries bads) s).
Proof.
  intros Hb. revert s. induction Hb as [|b bads Hb _ IH]; intros s.
  - by rewrite logs_nil.
  - simpl app. rewrite main_not_a_number by done. rewrite IH.
    unfold menu_retries. simpl flat_map. by norm_logs.
Qed.

(** C8.  A line that [int] refuses, typed where the id or the age of a new
    contact, the new age in [update], or the menu option is asked for, is
    answered with a complaint and the same question again, as often as it
    takes; the collection is not touched and no store call is made for
    such a line.  Once an integer is typed the flow goes on with it:
    [create_contact] reaches its insert with the two integers parsed, and
    the menu loop, after any number of refused options, takes the 0 that
    follows, prints the farewell and returns.  A turn of the menu on a
    refused line prints the menu, asks, complains and does not leave the
    loop.  A console that holds refused lines only ends in the [EOFError]
    of the next [input], never in an error of the refused line. *)
Theorem non_integer_is_asked_again :
  (∀ bads1 bads2 i n a p e rest s idv agev,
     Forall (λ b, int b = None) bads1 → Forall (λ b, int b = None) bads2 →
     int i = Some idv → int a = Some agev →
     create_contact (bads1 ++ i :: n :: bads2 ++ a :: p :: e :: rest) s
     = store_contact idv (lower n) agev (lower p) (lower e) rest
         (logs (retries "Enter ID: " "ID must be a number. Please try again."
                  bads1
                ++ [Prompt "Enter ID: "; Prompt "Enter name: "]
                ++ retries "Enter age: "
                     "Age must be a number. Please try again." bads2
                ++ [Prompt "Enter age: "; Prompt "Enter phone number: ";
                    Prompt "Enter email: "]) s))
  ∧ (∀ bads l n rest s,
       Forall (λ b, int (lower b) = None) bads → int (lower l) = Some n →
       value_loop AGE_KEY (bads ++ l :: rest) s
       = Ok (VInt n) rest
           (logs (retries "Enter the value: "
                    "Age must be a number. Please try again." bads
                  ++ [Prompt "Enter the value: "]) s))
  ∧ (∀ bad ins s,
       int bad = None →
       menu_turn (bad :: ins) s
       = Ok false ins
           (logs (menu_lines
                  ++ [Prompt "Select option> ";
                      Print "*** The option must be a number. Please try again. ***"])
              s)
       ∧ main (bad :: ins) s
         = main ins
             (logs (menu_lines
                    ++ [Prompt "Select option> ";
                        Print "*** The option must be a number. Please try again. ***"])
                s))
  ∧ (∀ bads l rest s,
       Forall (λ b, int b = None) bads → int l = Some EXIT_OPT →
       main (bads ++ l :: rest) s
       = Some (Ok tt rest
                 (logs (menu_retries bads ++ menu_lines
                        ++ [Prompt "Select option> ";
                            Print "Thanks for using this app! Cya!"]) s)))
  ∧ (∀ bads s,
       Forall (λ b, int b = None) bads →
       main bads s
       = Some (Raise EOFError []
                 (logs (menu_retries bads ++ menu_lines
                        ++ [Prompt "Select option> "]) s)))
  ∧ (∀ prompt complaint bads,
       Forall console_only (retries prompt complaint bads))
  ∧ (∀ bads, Forall console_only (menu_retries bads))
  ∧ (∀ prompt complaint bads s,
       Forall (λ b, int b = None) bads →
       int_loop prompt complaint bads s
       = Raise EOFError []
           (logs (retries prompt complaint bads ++ [Prompt prompt]) s)).
Proof.
  split; [|split; [|split; [|split; [|split; [|split; [|split]]]]]].
  - intros bads1 bads2 i n a p e rest s idv agev B1 B2 Hi Ha.
    unfold create_contact.
    step_with int_loop_retries. step. step_with int_loop_retries.
    do 2 step. by norm_logs; rewrite <- !app_assoc.
  - exact value_loop_retries.
  - intros bad ins s H. split.
    + by apply menu_turn_not_a_number.
    + by apply main_not_a_number.
  - intros bads l rest s Hb Hl.
    rewrite (main_retries bads (l :: rest) s Hb), (main_exit l rest _ Hl).
    by norm_logs.
  - intros bads s Hb.
    rewrite <- (app_nil_r bads) at 1.
    rewrite (main_retries bads [] s Hb), main_eof. by norm_logs.
  - intros prompt complaint bads. unfold retries.
    induction bads as [|b bads IH]; simpl; [constructor|].
    by repeat constructor.
  - intros bads. unfold menu_retries.
    induction bads as [|b bads IH]; simpl; [constructor|].
    by repeat constructor.
  - intros prompt complaint bads s Hb. revert s.
    induction Hb as [|b bads Hb _ IH]; intros s; [reflexivity|].
    rewrite int_loop_bad by done. rewrite IH. by norm_logs.
Qed.

(** ** The menu loop as a whole *)

Section Menu.
Context (C : store_call → Prop) (Q : relation (list document)) `{!PreOrder Q}.
Hypothesis C_find_one : ∀ k v, C (FindOne k v).
Hypothesis C_count : C CountDocuments.
Hypothesis C_find : C Find.
Hypothesis C_insert : ∀ i n a p e, C (InsertOne (new_contact i n a p e)).
Hypothesis C_delete : ∀ i, C (DeleteOne i).
Hypothesis C_update : ∀ i f v, updatable f → typed f v → C (UpdateOne i f v).
Hypothesis Q_insert :
  ∀ docs i n a p e,
    encodable (new_contact i n a p e) = true →
    first_match ID_KEY (VInt i) docs = None →
    Q docs (docs ++ [new_contact i n a p e]).
Hypothesis Q_update :
  ∀ i f v docs pos d,
    updatable f → typed f v → storable v = true →
    first_match ID_KEY i docs = Some (pos, d) →
    Q docs (<[pos := <[f := v]> d]> docs).
Hypothesis Q_delete : ∀ docs pos, Q docs (base.delete pos docs).

Lemma respects_dispatch l : respects (allowing C) Q (dispatch l).
Proof.
  unfold dispatch. destruct (int l) as [opt|].
  - destruct (opt =? EXIT_OPT); [by apply respects_ret|].
    apply respects_bind; [done| |intros _; by apply respects_ret].
    repeat match goal with
           | |- context [if ?b then _ else _] => destruct b
           end.
    + by apply respects_create_contact.
    + by apply respects_search_one.
    + by apply respects_show_all.
    + by apply respects_update.
    + by apply respects_delete.
    + by apply respects_print.
  - apply respects_bind; [done|by apply respects_print|].
    intros _. by apply respects_ret.
Qed.

Lemma respects_menu_turn : respects (allowing C) Q menu_turn.
Proof.
  unfold menu_turn.
  apply respects_bind; [done| |intros _].
  - unfold print_menu.
    repeat (apply respects_bind; [done|by apply respects_print|intros _]).
    by apply respects_print.
  - apply respects_bind; [done|by apply respects_input|].
    apply respects_dispatch.
Qed.

Lemma main_loop_moves fuel ins s r :
  main_loop fuel ins s = Some r → moves (allowing C) Q (ins, s) (outcome r).
Proof.
  revert ins s. induction fuel as [|fuel IH]; intros ins s; [done|].
  simpl. pose proof (respects_menu_turn ins s) as R.
  destruct (menu_turn ins s) as [[] ins' s'|e ins' s']; simpl in R.
  - intros [= <-]. eapply moves_trans; [done|exact R|].
    by apply (respects_print (allowing C) Q).
  - intros H. eapply moves_trans; [done|exact R|]. by apply IH.
  - by intros [= <-].
Qed.

(** A turn that returns has read the option line at least. *)
Lemma menu_turn_reads ins s b ins' s' :
  menu_turn ins s = Ok b ins' s' → (length ins' < length ins)%nat.
Proof.
  unfold menu_turn. step_with run_print_menu.
  destruct ins as [|l rest]; [done|]. step.
  intros H. pose proof (respects_dispatch l rest
                          (logs [Prompt "Select option> "] (logs menu_lines s)))
    as (L & _).
  rewrite H in L. simpl in *. lia.
Qed.

Lemma main_loop_total fuel ins s :
  (length ins < fuel)%nat → is_Some (main_loop fuel ins s).
Proof.
  revert ins s. induction fuel as [|fuel IH]; intros ins s Hl; [lia|].
  simpl. destruct (menu_turn ins s) as [[] ins' s'|e ins' s'] eqn:E; [done| |done].
  apply IH. apply menu_turn_reads in E. lia.
Qed.

End Menu.

(** The menu loop never runs out of turns: [main] always has an outcome. *)
Lemma main_total ins s : is_Some (main ins s).
Proof.
  unfold main.
  apply (main_loop_total (λ _, True) (λ _ _, True)); try done. lia.
Qed.

#[local] Instance keeps_sound_preorder : PreOrder keeps_sound.
Proof.
  split.
  - intros d H. exact H.
  - intros d1 d2 d3 H1 H2 H. by apply H2, H1.
Qed.

Lemma well_formed_new_contact i n a p e :
  encodable (new_contact i n a p e) = true →
  well_formed (new_contact i n a p e).
Proof. intros H. split; [by rewrite display_new_contact|done]. Qed.

Lemma well_formed_update d f v :
  well_formed d → updatable f → typed f v → storable v = true →
  well_formed (<[f := v]> d).
Proof.
  intros [[text Hd] He] Hf Ht Sv. split.
  - unfold contact_display in *. unfold updatable in Hf.
    rewrite !elem_of_cons, elem_of_nil in Hf.
    destruct (d !! ID_KEY) as [i|] eqn:E1; [|done].
    destruct (d !! NAME_KEY) as [[n|n]|] eqn:E2; [done| |done].
    destruct (d !! AGE_KEY) as [a|] eqn:E3; [|done].
    destruct (d !! PHONE_KEY) as [p|] eqn:E4; [|done].
    destruct (d !! EMAIL_KEY) as [e|] eqn:E5; [|done].
    destruct Hf as [->|[->|[->|[->|[]]]]];
      rewrite ?lookup_insert_eq, ?lookup_insert_ne by done;
      rewrite ?E1, ?E2, ?E3, ?E4, ?E5; try (by eexists).
    destruct v as [k|t]; [by simpl in Ht|by eexists].
  - unfold encodable in *. apply bool_decide_eq_true.
    apply bool_decide_eq_true in He. by apply map_Forall_insert_2.
Qed.

Lemma keeps_sound_insert docs i n a p e :
  encodable (new_contact i n a p e) = true →
  first_match ID_KEY (VInt i) docs = None →
  keeps_sound docs (docs ++ [new_contact i n a p e]).
Proof.
  intros He Hn [Hu Hw]. split.
  - eapply unique_ids_insert; [apply new_contact_id|exact Hn|exact Hu].
  - apply Forall_app. split; [exact Hw|].
    constructor; [|constructor]. by apply well_formed_new_contact.
Qed.

Lemma keeps_sound_update i f v docs pos d :
  updatable f → typed f v → storable v = true →
  first_match ID_KEY i docs = Some (pos, d) →
  keeps_sound docs (<[pos := <[f := v]> d]> docs).
Proof.
  intros U Ty Sv Hm [Hu Hw].
  apply first_match_Some in Hm as (Hp & _ & _). split.
  - eapply unique_ids_same_ids; [|exact Hu].
    apply ids_update; [exact Hp|]. by apply updatable_not_id.
  - apply Forall_insert; [exact Hw|].
    apply well_formed_update; [|exact U|exact Ty|exact Sv].
    rewrite Forall_forall in Hw. apply Hw.
    eapply list_elem_of_lookup_2, Hp.
Qed.

Lemma keeps_sound_delete docs pos : keeps_sound docs (base.delete pos docs).
Proof.
  intros [Hu Hw]. split.
  - by apply unique_ids_delete.
  - by apply Forall_delete.
Qed.

(** The menu loop keeps the collection sound, makes its [update_one] calls
    only on name, age, phone and email, and sends an integer exactly for the
    age. *)
Lemma main_invariant ins s r :
  main ins s = Some r →
  (sound (db_contacts s) → sound (db_contacts (outcome r).2))
  ∧ ∃ new, trace (outcome r).2 = trace s ++ new
           ∧ ∀ i f v, Call (UpdateOne i f v) ∈ new → updatable f ∧ typed f v.
Proof.
  intros H.
  destruct (main_loop_moves updates_typed keeps_sound
              (λ _ _, I) I I (λ _ _ _ _ _, I) (λ _, I)
              (λ _ _ _ U T, conj U T)
              keeps_sound_insert keeps_sound_update keeps_sound_delete
              _ _ _ _ H) as (_ & (new & T & F) & D).
  split; [exact D|]. exists new. split; [exact T|].
  intros i f v Hin. rewrite Forall_forall in F. exact (F _ Hin).
Qed.

(** What a sound collection gives for each of its documents. *)
Lemma sound_lookup docs pos c :
  sound docs → docs !! pos = Some c →
  ∃ text i, contact_display c = Some text ∧ c !! ID_KEY = Some i
            ∧ storable i = true
            ∧ first_match ID_KEY i docs = Some (pos, c).
Proof.
  intros [Hu Hw] Hp. rewrite Forall_forall in Hw.
  destruct (Hw c) as [[text Hd] He]; [by eapply list_elem_of_lookup_2|].
  destruct (contact_display_id _ _ Hd) as [i Hi].
  exists text, i. split; [done|]. split; [done|]. split.
  - apply bool_decide_eq_true in He. exact (He _ _ Hi).
  - by apply unique_ids_first_match.
Qed.

Lemma sound_displays docs :
  sound docs →
  ∃ texts, Forall2 (λ c t, contact_display c = Some t) docs texts.
Proof.
  intros [_ Hw]. induction Hw as [|c cs [[t Ht] _] _ [ts IH]].
  - exists []. constructor.
  - exists (t :: ts). by constructor.
Qed.

(** On a sound collection [show_all] always comes back, and leaves the
    collection alone. *)
Lemma show_all_sound ins s :
  sound (db_contacts s) →
  ∃ s', show_all ins s = Ok tt ins s' ∧ db_contacts s' = db_contacts s.
Proof.
  intros Hs. destruct (sound_displays _ Hs) as [texts Ht].
  destruct (db_contacts s) as [|c cs] eqn:E.
  - eexists. split; [by apply show_all_empty|done].
  - eexists. split; [apply (show_all_listing _ _ texts); by rewrite E|done].
Qed.

Lemma sound_empty : sound [].
Proof. split; [by intros i j d1 d2 v H|constructor]. Qed.

(** ** The theorems at work on the small agenda *)

Lemma unique_ids_agenda_two : unique_ids (db_contacts agenda_two).
Proof.
  intros i j d1 d2 v Hi Hj H1 H2.
  destruct i as [|[|i]], j as [|[|j]]; simpl in *; try done;
    simplify_eq; vm_compute in H1; vm_compute in H2; congruence.
Qed.

Lemma unique_ids_agenda_ana : unique_ids (db_contacts agenda_ana).
Proof.
  intros i j d1 d2 v Hi Hj _ _.
  destruct i as [|i], j as [|j]; simpl in *; done.
Qed.

Lemma insert_then_find_witness :
  ∃ s',
    create_contact ["7"; "Bob"; "41"; "555-XYZ"; "Bob@Y.org"] agenda_ana
    = Ok tt [] s'
    ∧ db_contacts s' = [ana; new_contact 7 "bob" 41 "555-xyz" "bob@y.org"]
    ∧ find_one NAME_KEY (VStr (lower "BOB")) [] s'
      = Ok (Some (new_contact 7 "bob" 41 "555-xyz" "bob@y.org")) []
           (logs [Call (FindOne NAME_KEY (VStr (lower "BOB")))] s')
    ∧ search_one ["BOB"] s'
      = Ok tt []
          (logs (search_shown "bob"
                   (contact_text (VInt 7) "Bob" (VInt 41) (VStr "555-xyz")
                      (VStr "bob@y.org"))) s').
Proof.
  apply (insert_then_find "7" "Bob" "41" "555-XYZ" "Bob@Y.org" [] "BOB" []
           agenda_ana 7 41); vm_compute; reflexivity.
Defined.

Lemma create_contact_duplicate_id_witness :
  is_Some (first_match ID_KEY (VInt 1) (db_contacts agenda_ana))
  ∧ ∃ s',
      create_contact ["1"; "Eve"; "22"; "555-3333"; "Eve@X.com"] agenda_ana
      = Ok tt [] s'
      ∧ trace s'
        = trace agenda_ana ++ create_prompts
          ++ [Call (InsertOne (new_contact 1 (lower "Eve") 22
                                 (lower "555-3333") (lower "Eve@X.com")));
              Print ("The id " +:+ of_int 1
                     +:+ " already exists, please enter an unique ID.")]
      ∧ db_contacts s' = db_contacts agenda_ana.
Proof.
  assert (is_Some (first_match ID_KEY (VInt 1) (db_contacts agenda_ana))) as H
    by (eexists; vm_compute; reflexivity).
  split; [exact H|].
  exact (proj2 (create_contact_duplicate_id
                  "1" "Eve" "22" "555-3333" "Eve@X.com" [] agenda_ana
                  1 22 eq_refl eq_refl eq_refl eq_refl H)).
Defined.


Lemma update_never_targets_id_witness :
  field_loop [" ID "; "e-mail"] agenda_ana
  = field_loop ["e-mail"]
      (logs [Prompt "What field do you want to update? ";
             Print "You can't modify the ID. (It's immutable!)"] agenda_ana)
  ∧ (updatable EMAIL_KEY ∧ EMAIL_KEY ≠ ID_KEY ∧ EMAIL_KEY ≠ "id").
Proof.
  split.
  - apply (proj1 update_never_targets_id). vm_compute; reflexivity.
  - apply (proj1 (proj2 update_never_targets_id)
             [" ID "; "e-mail"] agenda_ana EMAIL_KEY []
             (logs [Prompt "What field do you want to update? ";
                    Print "You can't modify the ID. (It's immutable!)";
                    Prompt "What field do you want to update? "] agenda_ana)).
    vm_compute; reflexivity.
Defined.

Lemma show_all_lists_the_collection_witness :
  show_all [] (State [] [])
  = Ok tt []
      (logs [Call CountDocuments; Print SEP29; Print "No data found.";
             Print SEP29] (State [] []))
  ∧ show_all [] agenda_two
    = Ok tt []
        (logs ([Call CountDocuments; Call Find]
               ++ listing [ana_text; ana_too_text] ++ [Print SEP29])
           agenda_two).
Proof.
  split.
  - apply (proj1 show_all_lists_the_collection). reflexivity.
  - apply (proj1 (proj2 show_all_lists_the_collection)).
    + discriminate.
    + repeat constructor.
Defined.

Lemma non_integer_is_asked_again_witness :
  create_contact
    (["x"; "1.5"] ++ "3" :: "Bob" :: ["forty"] ++ "41" :: "555" :: "b@x" :: [])
    agenda_ana
  = store_contact 3 (lower "Bob") 41 (lower "555") (lower "b@x") []
      (logs (retries "Enter ID: " "ID must be a number. Please try again."
               ["x"; "1.5"]
             ++ [Prompt "Enter ID: "; Prompt "Enter name: "]
             ++ retries "Enter age: "
                  "Age must be a number. Please try again." ["forty"]
             ++ [Prompt "Enter age: "; Prompt "Enter phone number: ";
                 Prompt "Enter email: "]) agenda_ana)
  ∧ menu_turn ("two" :: ["0"]) agenda_ana
    = Ok false ["0"]
        (logs (menu_lines
               ++ [Prompt "Select option> ";
                   Print "*** The option must be a number. Please try again. ***"])
           agenda_ana)
  ∧ main (["two"; "3.0"] ++ "0" :: ["1"]) agenda_ana
    = Some (Ok tt ["1"]
              (logs (menu_retries ["two"; "3.0"] ++ menu_lines
                     ++ [Prompt "Select option> ";
                         Print "Thanks for using this app! Cya!"])
                 agenda_ana)).
Proof.
  split; [|split].
  - apply (proj1 non_integer_is_asked_again);
      [repeat constructor|repeat constructor|reflexivity|reflexivity].
  - apply (proj1 (proj2 (proj2 non_integer_is_asked_again))). reflexivity.
  - apply (proj1 (proj2 (proj2 (proj2 non_integer_is_asked_again)))).
    + repeat constructor.
    + reflexivity.
Defined.

Lemma mutation_hits_the_shown_contact_witness :
  (∃ s',
     update ["ANA"; "age"; "31"] agenda_two = Ok tt [] s'
     ∧ ∃ text i f v asked told,
         contact_display ana = Some text ∧ ana !! ID_KEY = Some i
         ∧ Forall console_only asked ∧ Forall console_only told
         ∧ trace s' = trace agenda_two ++ update_shown (lower "ANA") text
                      ++ asked ++ [Call (UpdateOne i f v)] ++ told
         ∧ db_contacts s' = <[0%nat := <[f := v]> ana]> (db_contacts agenda_two)
         ∧ ∀ j, j ≠ 0%nat → db_contacts s' !! j = db_contacts agenda_two !! j)
  ∧ delete ["ana"; "Y"] agenda_two
    = Ok tt []
        (logs (delete_shown "ana" ana_text
               ++ [Call (DeleteOne (VInt 1)); Print "Contact deleted."])
           (set_db (base.delete 0%nat (db_contacts agenda_two)) agenda_two)).
Proof.
  split.
  - eexists. split; [vm_compute; reflexivity|].
    apply (proj1 mutation_hits_the_shown_contact
             "ANA" ["age"; "31"] agenda_two 0%nat ana []).
    + exact unique_ids_agenda_two.
    + vm_compute; reflexivity.
    + vm_compute; reflexivity.
  - apply (proj2 mutation_hits_the_shown_contact
             "ana" "Y" [] agenda_two 0%nat ana ana_text (VInt 1)).
    + exact unique_ids_agenda_two.
    + vm_compute; reflexivity.
    + vm_compute; reflexivity.
    + vm_compute; reflexivity.
    + reflexivity.
    + left. reflexivity.
Defined.

Lemma delete_only_on_yes_witness :
  (∃ new s',
     delete ["ana"; "YES"] agenda_ana = Ok tt [] s'
     ∧ trace s' = trace agenda_ana ++ delete_shown "ana" ana_text ++ new
     ∧ ((∃ j, Call (DeleteOne j) ∈ new)
        ↔ lower "YES" = "y" ∨ lower "YES" = "yes")
     ∧ (lower "YES" = "y" ∨ lower "YES" = "yes" →
        new = [Call (DeleteOne (VInt 1)); Print "Contact deleted."]
        ∧ db_contacts s' = without (VInt 1) (db_contacts agenda_ana))
     ∧ (¬ (lower "YES" = "y" ∨ lower "YES" = "yes") →
        new = [] ∧ db_contacts s' = db_contacts agenda_ana))
  ∧ without (VInt 1) (db_contacts agenda_ana) = [].
Proof.
  split.
  - apply (delete_only_on_yes "ana" "YES" [] agenda_ana 0%nat ana ana_text
             (VInt 1)); vm_compute; reflexivity.
  - vm_compute; reflexivity.
Defined.

(** * Further properties of the flows *)

(** ** Reasoning backwards through a flow *)

Lemma wp_bind {A B} (m : M A) (f : A → M B) ins s Post Exc :
  wp m ins s (λ a ins' s', wp (f a) ins' s' Post Exc) Exc →
  wp (bind m f) ins s Post Exc.
Proof. unfold wp, bind. by destruct (m ins s). Qed.

Lemma wp_mono {A} (m : M A) ins s (Post Post' : A → list string → state → Prop)
    (Exc Exc' : exn → state → Prop) :
  wp m ins s Post Exc →
  (∀ a ins' s', Post a ins' s' → Post' a ins' s') →
  (∀ e s', Exc e s' → Exc' e s') →
  wp m ins s Post' Exc'.
Proof. unfold wp. destruct (m ins s); auto. Qed.

Lemma wp_ret {A} (a : A) ins s (Post : A → list string → state → Prop) Exc :
  Post a ins s → wp (ret a) ins s Post Exc.
Proof. done. Qed.

Lemma wp_raise {A} e ins s (Post : A → list string → state → Prop)
    (Exc : exn → state → Prop) :
  Exc e s → wp (raise e) ins s Post Exc.
Proof. done. Qed.

Lemma wp_print text ins s (Post : unit → list string → state → Prop) Exc :
  (∀ s', db_contacts s' = db_contacts s → Post tt ins s') →
  wp (print text) ins s Post Exc.
Proof. intros H. by apply H. Qed.

Lemma wp_input prompt ins s (Post : string → list string → state → Prop)
    (Exc : exn → state → Prop) :
  (∀ l ins' s', (length ins' < length ins)%nat →
                db_contacts s' = db_contacts s → Post l ins' s') →
  (∀ s', db_contacts s' = db_contacts s → Exc EOFError s') →
  wp (input prompt) ins s Post Exc.
Proof.
  intros HP HE. unfold wp, input. destruct ins as [|l rest].
  - by apply HE.
  - apply HP; [simpl; lia|done].
Qed.

(** From what a piece respects to what holds at its end, when it touches
    the collection not at all. *)
Lemma wp_console {A} (m : M A) ins s
    (Post : A → list string → state → Prop) (Exc : exn → state → Prop) :
  respects console_only eq m →
  (∀ a ins' s', m ins s = Ok a ins' s' →
                db_contacts s' = db_contacts s → Post a ins' s') →
  (∀ e ins' s', m ins s = Raise e ins' s' →
                db_contacts s' = db_contacts s → Exc e s') →
  wp m ins s Post Exc.
Proof.
  intros R HP HE. unfold wp. destruct (R ins s) as (_ & _ & D).
  destruct (m ins s) as [a ins' s'|e ins' s'] eqn:E; simpl in D.
  - by apply HP.
  - by eapply HE.
Qed.

Lemma int_loop_raises prompt complaint ins s e ins' s' :
  int_loop prompt complaint ins s = Raise e ins' s' → e = EOFError.
Proof.
  revert s. induction ins as [|l ins IH]; intros s; simpl.
  - by intros [= <- _ _].
  - destruct (int l); [done|apply IH].
Qed.

Lemma field_loop_raises ins s e ins' s' :
  field_loop ins s = Raise e ins' s' → e = EOFError.
Proof.
  revert s. induction ins as [|l ins IH]; intros s; simpl.
  - by intros [= <- _ _].
  - repeat match goal with
           | |- context [if ?b then _ else _] => destruct b
           end; first [apply IH|done].
Qed.

Lemma value_loop_raises f ins s e ins' s' :
  value_loop f ins s = Raise e ins' s' → e = EOFError.
Proof.
  revert s. induction ins as [|l ins IH]; intros s; simpl.
  - by intros [= <- _ _].
  - destruct (py_in f [AGE_KEY]); [destruct (int (lower l))|];
      first [apply IH|done].
Qed.

Lemma wp_int_loop prompt complaint ins s
    (Post : Z → list string → state → Prop) (Exc : exn → state → Prop) :
  (∀ n ins' s', db_contacts s' = db_contacts s → Post n ins' s') →
  (∀ s', db_contacts s' = db_contacts s → Exc EOFError s') →
  wp (int_loop prompt complaint) ins s Post Exc.
Proof.
  intros HP HE. apply wp_console.
  - exact (respects_int_loop console_only eq _ _ I I).
  - intros; by apply HP.
  - intros e ins' s' E D. apply int_loop_raises in E as ->. by apply HE.
Qed.

Lemma wp_field_loop ins s
    (Post : string → list string → state → Prop) (Exc : exn → state → Prop) :
  (∀ f ins' s', updatable f → db_contacts s' = db_contacts s →
                Post f ins' s') →
  (∀ s', db_contacts s' = db_contacts s → Exc EOFError s') →
  wp field_loop ins s Post Exc.
Proof.
  intros HP HE. apply wp_console.
  - exact (respects_field_loop console_only eq (λ _, I) (λ _, I)).
  - intros f ins' s' E D. apply HP; [|done]. by eapply field_loop_updatable.
  - intros e ins' s' E D. apply field_loop_raises in E as ->. by apply HE.
Qed.

Lemma wp_value_loop f ins s
    (Post : value → list string → state → Prop) (Exc : exn → state → Prop) :
  (∀ v ins' s', typed f v → db_contacts s' = db_contacts s → Post v ins' s') →
  (∀ s', db_contacts s' = db_contacts s → Exc EOFError s') →
  wp (value_loop f) ins s Post Exc.
Proof.
  intros HP HE. apply wp_console.
  - exact (respects_value_loop console_only eq f (λ _, I) (λ _, I)).
  - intros v ins' s' E D. apply HP; [|done]. by eapply value_loop_typed.
  - intros e ins' s' E D. apply value_loop_raises in E as ->. by apply HE.
Qed.

Lemma wp_print_contact c ins s
    (Post : unit → list string → state → Prop) (Exc : exn → state → Prop) :
  (∀ text s', contact_display c = Some text →
              db_contacts s' = db_contacts s → Post tt ins s') →
  (contact_display c = None → Exc KeyError s ∧ Exc AttributeError s) →
  wp (print_contact c) ins s Post Exc.
Proof.
  intros HP HE. unfold wp.
  pose proof (run_print_contact c ins s) as R.
  destruct (contact_display c) as [text|] eqn:Hd.
  - rewrite R. by eapply HP.
  - destruct (HE eq_refl) as [HK HA].
    revert R. unfold print_contact, bind, getitem.
    destruct (c !! ID_KEY); simpl; [|done].
    destruct (c !! NAME_KEY) as [[n|n]|]; simpl; [done| |done].
    destruct (c !! AGE_KEY); simpl; [|done].
    destruct (c !! PHONE_KEY); simpl; [|done].
    destruct (c !! EMAIL_KEY); simpl; [|done].
    by intros [e [=]].
Qed.

Lemma wp_find_name name ins s
    (Post : option document → list string → state → Prop) Exc :
  (∀ s', db_contacts s' = db_contacts s →
         Post (snd <$> first_match NAME_KEY (VStr name) (db_contacts s))
           ins s') →
  wp (find_one NAME_KEY (VStr name)) ins s Post Exc.
Proof. intros H. unfold wp. rewrite run_find_one by done. by apply H. Qed.


Lemma wp_store_contact i n a p e ins s
    (Post : unit → list string → state → Prop) (Exc : exn → state → Prop) :
  (encodable (new_contact i n a p e) = false →
   ∀ s', db_contacts s' = db_contacts s → Exc OverflowError s') →
  (encodable (new_contact i n a p e) = true →
   is_Some (first_match ID_KEY (VInt i) (db_contacts s)) →
   ∀ s', db_contacts s' = db_contacts s → Post tt ins s') →
  (encodable (new_contact i n a p e) = true →
   first_match ID_KEY (VInt i) (db_contacts s) = None →
   ∀ s', db_contacts s' = db_contacts s ++ [new_contact i n a p e] →
         Post tt ins s') →
  wp (store_contact i n a p e) ins s Post Exc.
Proof.
  intros HO HD HF. unfold wp, store_contact, try_except.
  destruct (encodable (new_contact i n a p e)) eqn:He.
  - destruct (first_match ID_KEY (VInt i) (db_contacts s)) as [x|] eqn:Hm.
    + erewrite bind_Raise.
      2: { eapply insert_one_duplicate; [done|apply new_contact_id|].
           rewrite Hm. by eexists. }
      rewrite decide_True by done. rewrite run_print.
      apply HD; [done|by eexists|done].
    + erewrite bind_Ok.
      2: { eapply insert_one_fresh; [done|apply new_contact_id|done]. }
      cbn [ins_acknowledged]. rewrite run_print. by apply HF.
  - unfold insert_one, bind, emit. rewrite He. simpl. by apply HO.
Qed.

Lemma wp_update_one i f v ins s
    (Post : UpdateResult → list string → state → Prop)
    (Exc : exn → state → Prop) :
  (storable i && storable v = false →
   ∀ s', db_contacts s' = db_contacts s → Exc OverflowError s') →
  (storable i && storable v = true →
   ∀ s', db_contacts s' = updated i f v (db_contacts s) →
         Post (update_reply i f v (db_contacts s)) ins s') →
  wp (update_one i f v) ins s Post Exc.
Proof.
  intros HO HP. unfold wp. destruct (storable i && storable v) eqn:St.
  - rewrite run_update_one by done. by apply HP.
  - unfold update_one, bind, emit. rewrite St. simpl. by apply HO.
Qed.

Lemma wp_delete_one i ins s
    (Post : unit → list string → state → Prop) (Exc : exn → state → Prop) :
  (storable i = false →
   ∀ s', db_contacts s' = db_contacts s → Exc OverflowError s') →
  (storable i = true →
   ∀ s', db_contacts s' = without i (db_contacts s) → Post tt ins s') →
  wp (delete_one i) ins s Post Exc.
Proof.
  intros HO HP. unfold wp. destruct (storable i) eqn:St.
  - rewrite run_delete_one by done. by apply HP.
  - unfold delete_one, bind, emit. rewrite St. simpl. by apply HO.
Qed.

(** ** How each flow can end *)

Lemma create_contact_ends ins s :
  wp create_contact ins s
    (λ _ _ s',
       db_contacts s' = db_contacts s
       ∨ ∃ i n a p e,
           encodable (new_contact i n a p e) = true
           ∧ first_match ID_KEY (VInt i) (db_contacts s) = None
           ∧ db_contacts s' = db_contacts s ++ [new_contact i n a p e])
    (λ e s', (e = EOFError ∨ e = OverflowError)
             ∧ db_contacts s' = db_contacts s).
Proof.
  unfold create_contact.
  apply wp_bind, wp_int_loop; [intros i ins1 s1 D1|by auto].
  apply wp_bind, wp_input; [intros n ins2 s2 _ D2|intros; split; [auto|congruence]].
  apply wp_bind, wp_int_loop; [intros a ins3 s3 D3|intros; split; [auto|congruence]].
  apply wp_bind, wp_input; [intros p ins4 s4 _ D4|intros; split; [auto|congruence]].
  apply wp_bind, wp_input; [intros e ins5 s5 _ D5|intros; split; [auto|congruence]].
  assert (db_contacts s5 = db_contacts s) as D by congruence.
  apply wp_store_contact.
  - intros _ s' D'. split; [auto|congruence].
  - intros _ _ s' D'. left. congruence.
  - intros He Hn s' D'. right. exists i, (lower n), a, (lower p), (lower e).
    rewrite <- D. split; [exact He|]. split; [exact Hn|exact D'].
Qed.

Lemma search_one_ends ins s :
  wp search_one ins s
    (λ _ _ s', db_contacts s' = db_contacts s)
    (λ e s', db_contacts s' = db_contacts s
             ∧ (e = EOFError
                ∨ (e = KeyError ∨ e = AttributeError)
                  ∧ ∃ name, unshowable name (db_contacts s))).
Proof.
  unfold search_one.
  apply wp_bind, wp_input; [intros l ins1 s1 _ D1|by auto].
  apply wp_bind, wp_find_name. intros s2 D2. rewrite D1.
  destruct (first_match NAME_KEY (VStr (lower l)) (db_contacts s))
    as [[pos c]|] eqn:Hf; cbn [fmap option_fmap option_map snd].
  - rewrite (truthy_found _ _ _ _ _ Hf).
    apply wp_bind, wp_print. intros s3 D3.
    apply wp_bind, wp_print_contact.
    + intros text s4 Hd D4. apply wp_print. intros s5 D5. congruence.
    + intros Hd.
      assert (db_contacts s3 = db_contacts s) as D by congruence.
      split; (split; [done|right]); (split; [auto|]);
        exists (lower l), pos, c; by split.
  - apply wp_print. intros s3 D3. congruence.
Qed.

Lemma update_ends ins s :
  wp update ins s
    (λ _ _ s',
       db_contacts s' = db_contacts s
       ∨ ∃ name pos c i f v,
           first_match NAME_KEY (VStr name) (db_contacts s) = Some (pos, c)
           ∧ c !! ID_KEY = Some i ∧ updatable f ∧ typed f v
           ∧ storable i && storable v = true
           ∧ db_contacts s' = updated i f v (db_contacts s))
    (λ e s', db_contacts s' = db_contacts s
             ∧ (e = EOFError ∨ e = OverflowError
                ∨ (e = KeyError ∨ e = AttributeError)
                  ∧ ∃ name, unshowable name (db_contacts s))).
Proof.
  unfold update.
  apply wp_bind, wp_input; [intros l ins1 s1 _ D1|by auto].
  apply wp_bind, wp_find_name. intros s2 D2. rewrite D1.
  destruct (first_match NAME_KEY (VStr (lower l)) (db_contacts s))
    as [[pos c]|] eqn:Hf; cbn [fmap option_fmap option_map snd].
  2: { apply wp_print. intros s3 D3. left. congruence. }
  rewrite (truthy_found _ _ _ _ _ Hf). cbn [negb].
  apply wp_bind, wp_print. intros s3 D3.
  apply wp_bind, wp_print_contact.
  2: { intros Hd. assert (db_contacts s3 = db_contacts s) as D by congruence.
       split; (split; [exact D|right; right]); (split; [auto|]);
         exists (lower l), pos, c; by split. }
  intros text s4 Hd D4. apply wp_bind, wp_print. intros s5 D5.
  assert (db_contacts s5 = db_contacts s) as D by congruence.
  apply wp_bind, wp_field_loop; [|intros; split; [congruence|auto]].
  intros f ins6 s6 Uf D6.
  apply wp_bind, wp_value_loop; [|intros; split; [congruence|auto]].
  intros v ins7 s7 Tv D7.
  destruct (contact_display_id _ _ Hd) as [i Hi].
  unfold getitem. rewrite Hi. apply wp_bind, wp_ret.
  assert (db_contacts s7 = db_contacts s) as D' by congruence.
  apply wp_bind, wp_update_one.
  - intros _ s8 D8. split; [congruence|auto].
  - intros St s8 D8. rewrite update_reply_acknowledged.
    apply wp_bind, wp_print. intros s9 D9. apply wp_print. intros s10 D10.
    right. exists (lower l), pos, c, i, f, v.
    split; [exact Hf|]. split; [exact Hi|]. split; [exact Uf|].
    split; [exact Tv|]. split; [exact St|]. rewrite <- D'. congruence.
Qed.

Lemma delete_ends ins s :
  wp delete ins s
    (λ _ _ s',
       db_contacts s' = db_contacts s
       ∨ ∃ name pos c i,
           first_match NAME_KEY (VStr name) (db_contacts s) = Some (pos, c)
           ∧ c !! ID_KEY = Some i ∧ storable i = true
           ∧ db_contacts s' = without i (db_contacts s))
    (λ e s', db_contacts s' = db_contacts s
             ∧ (e = EOFError
                ∨ (e = OverflowError
                   ∧ ∃ name pos c i,
                       first_match NAME_KEY (VStr name) (db_contacts s)
                       = Some (pos, c)
                       ∧ c !! ID_KEY = Some i ∧ storable i = false)
                ∨ (e = KeyError ∨ e = AttributeError)
                  ∧ ∃ name, unshowable name (db_contacts s))).
Proof.
  unfold delete.
  apply wp_bind, wp_input; [intros l ins1 s1 _ D1|by auto].
  apply wp_bind, wp_find_name. intros s2 D2. rewrite D1.
  destruct (first_match NAME_KEY (VStr l) (db_contacts s))
    as [[pos c]|] eqn:Hf; cbn [fmap option_fmap option_map snd].
  2: { apply wp_print. intros s3 D3. left. congruence. }
  rewrite (truthy_found _ _ _ _ _ Hf). cbn [negb].
  apply wp_bind, wp_print. intros s3 D3.
  apply wp_bind, wp_print_contact.
  2: { intros Hd. assert (db_contacts s3 = db_contacts s) as D by congruence.
       split; (split; [exact D|right; right]); (split; [auto|]);
         exists l, pos, c; by split. }
  intros text s4 Hd D4. apply wp_bind, wp_print. intros s5 D5.
  apply wp_bind, wp_input; [|intros; split; [congruence|auto]].
  intros ans ins6 s6 _ D6.
  assert (db_contacts s6 = db_contacts s) as D by congruence.
  destruct (py_in (lower ans) ["y"; "yes"]).
  2: { apply wp_ret. by left. }
  destruct (contact_display_id _ _ Hd) as [i Hi].
  unfold getitem. rewrite Hi. apply wp_bind, wp_ret.
  apply wp_bind, wp_delete_one.
  - intros St s7 D7. split; [congruence|]. right. left. split; [done|].
    exists l, pos, c, i. by repeat split.
  - intros St s7 D7. apply wp_print. intros s8 D8. right.
    exists l, pos, c, i. split; [exact Hf|]. split; [exact Hi|].
    split; [exact St|]. rewrite <- D. congruence.
Qed.

Lemma show_each_ends contacts ins s :
  wp (show_each contacts) ins s
    (λ _ _ s', db_contacts s' = db_contacts s)
    (λ e s', db_contacts s' = db_contacts s
             ∧ (e = KeyError ∨ e = AttributeError)
             ∧ ∃ c, c ∈ contacts ∧ contact_display c = None).
Proof.
  revert s. induction contacts as [|c cs IH]; intros s; simpl show_each.
  - by apply wp_ret.
  - apply wp_bind, wp_print. intros s1 D1.
    apply wp_bind, wp_print_contact.
    + intros text s2 Hd D2. eapply wp_mono; [apply IH| |].
      * intros u ins' s' D'. simpl in D'. congruence.
      * intros e s' (D' & He & c' & Hin & Hc). split; [congruence|].
        split; [exact He|]. exists c'. split; [by right|exact Hc].
    + intros Hd. split; (split; [exact D1|]); (split; [auto|]);
        exists c; (split; [by left|exact Hd]).
Qed.

Lemma show_all_ends ins s :
  wp show_all ins s
    (λ _ _ s', db_contacts s' = db_contacts s)
    (λ e s', db_contacts s' = db_contacts s
             ∧ (e = KeyError ∨ e = AttributeError)
             ∧ ∃ c, c ∈ db_contacts s ∧ contact_display c = None).
Proof.
  unfold show_all. apply wp_bind. unfold wp at 1.
  rewrite run_count_documents.
  destruct (Z.of_nat (length (db_contacts s)) =? 0).
  - apply wp_bind, wp_print. intros s1 D1. apply wp_bind, wp_print.
    intros s2 D2. apply wp_print. intros s3 D3. simpl in *. congruence.
  - apply wp_bind. unfold wp at 1. rewrite run_find. rewrite db_logs.
    apply wp_bind. eapply wp_mono; [apply show_each_ends| |].
    + intros u ins' s' D'. apply wp_print. intros s2 D2. simpl in *.
      congruence.
    + intros e s' (D' & He & Hc). split; [exact D'|]. by split.
Qed.

Lemma updated_shape i f v docs :
  updated i f v docs = docs
  ∨ ∃ pos c, docs !! pos = Some c ∧ c !! ID_KEY = Some i
             ∧ updated i f v docs = <[pos := <[f := v]> c]> docs.
Proof.
  unfold updated. destruct (first_match ID_KEY i docs) as [[pos c]|] eqn:E.
  - right. exists pos, c. apply first_match_Some in E as (Hp & Hi & _).
    by repeat split.
  - by left.
Qed.

Lemma without_shape i docs :
  without i docs = docs
  ∨ ∃ pos c, docs !! pos = Some c ∧ c !! ID_KEY = Some i
             ∧ without i docs = base.delete pos docs.
Proof.
  unfold without. destruct (first_match ID_KEY i docs) as [[pos c]|] eqn:E.
  - right. exists pos, c. apply first_match_Some in E as (Hp & Hi & _).
    by repeat split.
  - by left.
Qed.

(** X3.  What a flow that returns has done to the collection, whatever was
    typed: [create_contact] has left it alone or appended one new contact
    whose [_id] was not stored; [update] has left it alone or replaced one
    of the four fields in one document; [delete] has left it alone or
    removed one document; [search_one] and [show_all] have left it alone. *)
Theorem returning_flow_changes_one_thing ins s ins' s' :
  (create_contact ins s = Ok tt ins' s' →
   db_contacts s' = db_contacts s
   ∨ ∃ i n a p e,
       first_match ID_KEY (VInt i) (db_contacts s) = None
       ∧ db_contacts s' = db_contacts s ++ [new_contact i n a p e])
  ∧ (update ins s = Ok tt ins' s' →
     db_contacts s' = db_contacts s
     ∨ ∃ pos c f v,
         db_contacts s !! pos = Some c ∧ updatable f ∧ typed f v
         ∧ db_contacts s' = <[pos := <[f := v]> c]> (db_contacts s))
  ∧ (delete ins s = Ok tt ins' s' →
     db_contacts s' = db_contacts s
     ∨ ∃ pos c,
         db_contacts s !! pos = Some c
         ∧ db_contacts s' = base.delete pos (db_contacts s))
  ∧ (search_one ins s = Ok tt ins' s' → db_contacts s' = db_contacts s)
  ∧ (show_all ins s = Ok tt ins' s' → db_contacts s' = db_contacts s).
Proof.
  split; [|split; [|split; [|split]]]; intros E.
  - pose proof (create_contact_ends ins s) as W. unfold wp in W.
    rewrite E in W. destruct W as [W|(i & n & a & p & e & _ & Hn & W)].
    + by left.
    + right. exists i, n, a, p, e. by split.
  - pose proof (update_ends ins s) as W. unfold wp in W. rewrite E in W.
    destruct W as [W|(name & pos & c & i & f & v & _ & _ & U & T & _ & W)].
    + by left.
    + destruct (updated_shape i f v (db_contacts s))
        as [Hs|(pos' & c' & Hp & _ & Hs)]; rewrite Hs in W.
      * by left.
      * right. exists pos', c', f, v. by repeat split.
  - pose proof (delete_ends ins s) as W. unfold wp in W. rewrite E in W.
    destruct W as [W|(name & pos & c & i & _ & _ & _ & W)].
    + by left.
    + destruct (without_shape i (db_contacts s))
        as [Hs|(pos' & c' & Hp & _ & Hs)]; rewrite Hs in W.
      * by left.
      * right. exists pos', c'. by split.
  - pose proof (search_one_ends ins s) as W. unfold wp in W.
    by rewrite E in W.
  - pose proof (show_all_ends ins s) as W. unfold wp in W.
    by rewrite E in W.
Qed.

(** X4.  A flow that ends in an exception has not changed the collection:
    every flow writes last, and nothing after the write can raise. *)
Theorem raising_flow_changes_nothing ins s e ins' s' :
  create_contact ins s = Raise e ins' s'
  ∨ search_one ins s = Raise e ins' s'
  ∨ show_all ins s = Raise e ins' s'
  ∨ update ins s = Raise e ins' s'
  ∨ delete ins s = Raise e ins' s' →
  db_contacts s' = db_contacts s.
Proof.
  intros [E|[E|[E|[E|E]]]].
  - pose proof (create_contact_ends ins s) as W. unfold wp in W.
    rewrite E in W. apply W.
  - pose proof (search_one_ends ins s) as W. unfold wp in W.
    rewrite E in W. apply W.
  - pose proof (show_all_ends ins s) as W. unfold wp in W.
    rewrite E in W. apply W.
  - pose proof (update_ends ins s) as W. unfold wp in W.
    rewrite E in W. apply W.
  - pose proof (delete_ends ins s) as W. unfold wp in W.
    rewrite E in W. apply W.
Qed.

Lemma sound_showable name docs : sound docs → ¬ unshowable name docs.
Proof.
  intros [_ Hw] (pos & c & Hf & Hd).
  apply first_match_Some in Hf as (Hp & _ & _).
  rewrite Forall_forall in Hw.
  destruct (Hw c) as [[text Ht] _]; [by eapply list_elem_of_lookup_2|].
  congruence.
Qed.

Lemma sound_storable_id docs pos c i :
  sound docs → docs !! pos = Some c → c !! ID_KEY = Some i →
  storable i = true.
Proof.
  intros Hs Hp Hi. destruct (sound_lookup _ _ _ Hs Hp) as (t & j & _ & Hj & S & _).
  congruence.
Qed.

(** X5.  On a sound collection (distinct [_id]s, every document with its
    five fields) the flows raise very little: [show_all] always returns;
    [search_one] and [delete] can only end in the [EOFError] of an exhausted
    console; [create_contact] and [update] in that or in the
    [OverflowError] of an integer beyond 64 bits.  No [KeyError], no
    [AttributeError], no [DuplicateKeyError] gets out. *)
Theorem sound_flows_raise_little ins s :
  sound (db_contacts s) →
  (∃ s', show_all ins s = Ok tt ins s')
  ∧ (∀ e ins' s', search_one ins s = Raise e ins' s' → e = EOFError)
  ∧ (∀ e ins' s', delete ins s = Raise e ins' s' → e = EOFError)
  ∧ (∀ e ins' s', create_contact ins s = Raise e ins' s' →
                  e = EOFError ∨ e = OverflowError)
  ∧ (∀ e ins' s', update ins s = Raise e ins' s' →
                  e = EOFError ∨ e = OverflowError).
Proof.
  intros Hs. split; [|split; [|split; [|split]]].
  - destruct (show_all_sound ins s Hs) as (s' & E & _). by exists s'.
  - intros e ins' s' E. pose proof (search_one_ends ins s) as W.
    unfold wp in W. rewrite E in W. destruct W as (_ & [->|(_ & name & U)]).
    + done.
    + by destruct (sound_showable name _ Hs).
  - intros e ins' s' E. pose proof (delete_ends ins s) as W.
    unfold wp in W. rewrite E in W.
    destruct W as (_ & [->|[(_ & name & pos & c & i & Hf & Hi & St)
                           |(_ & name & U)]]).
    + done.
    + apply first_match_Some in Hf as (Hp & _ & _).
      rewrite (sound_storable_id _ _ _ _ Hs Hp Hi) in St. discriminate.
    + by destruct (sound_showable name _ Hs).
  - intros e ins' s' E. pose proof (create_contact_ends ins s) as W.
    unfold wp in W. rewrite E in W. apply W.
  - intros e ins' s' E. pose proof (update_ends ins s) as W.
    unfold wp in W. rewrite E in W.
    destruct W as (_ & [->|[->|(_ & name & U)]]); [by left|by right|].
    by destruct (sound_showable name _ Hs).
Qed.

(** ** The whole session on a sound collection *)

Lemma menu_turn_consumes ins s b ins' s' :
  menu_turn ins s = Ok b ins' s' → (length ins' < length ins)%nat.
Proof.
  apply (menu_turn_reads (λ _, True) (λ _ _, True)); try exact I;
    intros; exact I.
Qed.

Lemma sound_updated i f v docs :
  sound docs → updatable f → typed f v → storable i && storable v = true →
  sound (updated i f v docs).
Proof.
  intros Hs U T St. apply andb_true_iff in St as [_ Sv]. unfold updated.
  destruct (first_match ID_KEY i docs) as [[pos d]|] eqn:E; [|exact Hs].
  by apply (keeps_sound_update i f v docs pos d).
Qed.

Lemma sound_without i docs : sound docs → sound (without i docs).
Proof.
  intros Hs. unfold without.
  destruct (first_match ID_KEY i docs) as [[pos d]|]; [|exact Hs].
  by apply keeps_sound_delete.
Qed.

Lemma create_contact_sound : sound_end create_contact.
Proof.
  intros ins s Hs. eapply wp_mono; [apply create_contact_ends| |].
  - intros u ins' s' [D|(i & n & a & p & e & He & Hn & D)]; simpl in *.
    + by rewrite D.
    + rewrite D. by apply keeps_sound_insert.
  - intros e s' [He D]. split; [exact He|]. by rewrite D.
Qed.

Lemma search_one_sound : sound_end search_one.
Proof.
  intros ins s Hs. eapply wp_mono; [apply search_one_ends| |].
  - intros u ins' s' D. simpl in D. by rewrite D.
  - intros e s' [D [->|(_ & name & U)]].
    + split; [by left|by rewrite D].
    + by destruct (sound_showable name _ Hs).
Qed.

Lemma show_all_ends_sound : sound_end show_all.
Proof.
  intros ins s Hs. destruct (show_all_sound ins s Hs) as (s' & E & D).
  unfold wp. rewrite E. by rewrite D.
Qed.

Lemma update_sound : sound_end update.
Proof.
  intros ins s Hs. eapply wp_mono; [apply update_ends| |].
  - intros u ins' s'
      [D|(name & pos & c & i & f & v & _ & _ & U & T & St & D)]; simpl in *.
    + by rewrite D.
    + rewrite D. by apply sound_updated.
  - intros e s' [D [->|[->|(_ & name & U)]]].
    + split; [by left|by rewrite D].
    + split; [by right|by rewrite D].
    + by destruct (sound_showable name _ Hs).
Qed.

Lemma delete_sound : sound_end delete.
Proof.
  intros ins s Hs. eapply wp_mono; [apply delete_ends| |].
  - intros u ins' s' [D|(name & pos & c & i & _ & _ & _ & D)]; simpl in *.
    + by rewrite D.
    + rewrite D. by apply sound_without.
  - intros e s' [D [->|[(-> & _)|(_ & name & U)]]].
    + split; [by left|by rewrite D].
    + split; [by right|by rewrite D].
    + by destruct (sound_showable name _ Hs).
Qed.

Lemma menu_turn_sound : sound_end menu_turn.
Proof.
  intros ins s Hs. unfold menu_turn.
  apply wp_bind. unfold wp at 1. rewrite run_print_menu.
  apply wp_bind, wp_input.
  2: { intros s' D. simpl in D. split; [by left|by rewrite D]. }
  intros l ins1 s1 _ D1. simpl in D1.
  assert (sound (db_contacts s1)) as Hs1 by (by rewrite D1).
  unfold dispatch. destruct (int l) as [opt|].
  2: { apply wp_bind, wp_print. intros s2 D2. apply wp_ret. by rewrite D2. }
  destruct (opt =? EXIT_OPT); [by apply wp_ret|].
  apply wp_bind.
  assert (∀ m : M unit, sound_end m →
            wp m ins1 s1
              (λ _ ins' s',
                 wp (ret false) ins' s' (λ _ _ s'', sound (db_contacts s''))
                   (λ e s'', (e = EOFError ∨ e = OverflowError)
                             ∧ sound (db_contacts s'')))
              (λ e s'', (e = EOFError ∨ e = OverflowError)
                        ∧ sound (db_contacts s''))) as K.
  { intros m Hm. eapply wp_mono; [by apply Hm| |done].
    intros u ins' s' Hs'. by apply wp_ret. }
  repeat match goal with
         | |- context [if ?b then _ else _] => destruct b
         end.
  - apply K, create_contact_sound.
  - apply K, search_one_sound.
  - apply K, show_all_ends_sound.
  - apply K, update_sound.
  - apply K, delete_sound.
  - apply wp_print. intros s2 D2. apply wp_ret. by rewrite D2.
Qed.

Lemma main_loop_sound fuel ins s :
  (length ins < fuel)%nat → sound (db_contacts s) →
  ∃ r, main_loop fuel ins s = Some r
       ∧ match r with
         | Ok _ _ s' =>
             sound (db_contacts s')
             ∧ ∃ before,
                 trace s' = before ++ [Print "Thanks for using this app! Cya!"]
         | Raise e _ s' =>
             (e = EOFError ∨ e = OverflowError) ∧ sound (db_contacts s')
         end.
Proof.
  revert ins s. induction fuel as [|fuel IH]; intros ins s Hl Hs; [lia|].
  simpl. pose proof (menu_turn_sound ins s Hs) as W. unfold wp in W.
  destruct (menu_turn ins s) as [[] ins' s'|e ins' s'] eqn:E.
  - eexists. split; [reflexivity|]. rewrite run_print. split; [exact W|].
    by exists (trace s').
  - apply IH; [|exact W]. apply menu_turn_consumes in E. lia.
  - eexists. split; [reflexivity|]. exact W.
Qed.

(** X6.  Started on a sound collection, the menu loop always comes to an
    end on a finite console, and the collection it leaves is sound again.
    It ends by returning, after the farewell line, or by the [EOFError] of
    an exhausted console, or by the [OverflowError] of an integer beyond
    64 bits; no other exception ends the program. *)
Theorem main_on_a_sound_collection ins s :
  sound (db_contacts s) →
  ∃ r, main ins s = Some r
       ∧ match r with
         | Ok _ _ s' =>
             sound (db_contacts s')
             ∧ ∃ before,
                 trace s' = before ++ [Print "Thanks for using this app! Cya!"]
         | Raise e _ s' =>
             (e = EOFError ∨ e = OverflowError) ∧ sound (db_contacts s')
         end.
Proof. intros Hs. apply main_loop_sound; [lia|exact Hs]. Qed.

(** ** The menu *)

Lemma main_loop_fuel fuel fuel' ins s :
  (length ins < fuel)%nat → (length ins < fuel')%nat →
  main_loop fuel ins s = main_loop fuel' ins s.
Proof.
  revert fuel' ins s.
  induction fuel as [|fuel IH]; intros [|fuel'] ins s H1 H2; try lia.
  simpl. destruct (menu_turn ins s) as [[] ins' s'|e ins' s'] eqn:E;
    [done| |done].
  apply menu_turn_consumes in E. apply IH; lia.
Qed.

Lemma main_step ins s :
  main ins s
  = match menu_turn ins s with
    | Ok true ins' s' => Some (print "Thanks for using this app! Cya!" ins' s')
    | Ok false ins' s' => main ins' s'
    | Raise e ins' s' => Some (Raise e ins' s')
    end.
Proof.
  unfold main at 1. simpl main_loop.
  destruct (menu_turn ins s) as [[] ins' s'|e ins' s'] eqn:E; [done| |done].
  apply menu_turn_consumes in E. unfold main. apply main_loop_fuel; lia.
Qed.

Lemma main_after_option l rest s n :
  int l = Some n → n ≠ EXIT_OPT →
  main (l :: rest) s
  = match dispatch l rest
            (logs (menu_lines ++ [Prompt "Select option> "]) s) with
    | Ok _ ins' s' => main ins' s'
    | Raise e ins' s' => Some (Raise e ins' s')
    end.
Proof.
  intros Hl Hn.
  rewrite main_step. unfold menu_turn. step_with run_print_menu. step.
  norm_logs. unfold dispatch. rewrite Hl. apply Z.eqb_neq in Hn. rewrite Hn.
  match goal with
  | |- context [bind ?m _] => generalize m; intros flow
  end.
  unfold bind. by destruct (flow rest _) as [[] ins' s'|e ins' s'].
Qed.

(** X7.  What each answer to the menu does.  An integer 0 prints the
    farewell and ends the program without reading further; 1 to 5 run
    create, search, show all, update and delete on the lines that follow and
    the menu comes again, unless the flow raised; any other integer is told
    "*** Not a valid option. Please try again. ***" and the menu comes
    again. *)
Theorem menu_options l rest s n :
  int l = Some n →
  let s1 := logs (menu_lines ++ [Prompt "Select option> "]) s in
  (n = 0 →
   main (l :: rest) s
   = Some (Ok tt rest (logs [Print "Thanks for using this app! Cya!"] s1)))
  ∧ (n = 1 → main (l :: rest) s = then_menu (create_contact rest s1))
  ∧ (n = 2 → main (l :: rest) s = then_menu (search_one rest s1))
  ∧ (n = 3 → main (l :: rest) s = then_menu (show_all rest s1))
  ∧ (n = 4 → main (l :: rest) s = then_menu (update rest s1))
  ∧ (n = 5 → main (l :: rest) s = then_menu (delete rest s1))
  ∧ (n < 0 ∨ 5 < n →
     main (l :: rest) s
     = main rest
         (logs [Print "*** Not a valid option. Please try again. ***"] s1)).
Proof.
  intros Hl s1.
  assert (∀ flow : M unit,
            match bind flow (λ _, ret false) rest s1 with
            | Ok _ ins' s' => main ins' s'
            | Raise e ins' s' => Some (Raise e ins' s')
            end = then_menu (flow rest s1)) as K.
  { intros flow. unfold bind, then_menu.
    by destruct (flow rest s1) as [[] ins' s'|e ins' s']. }
  split; [|repeat split]; intros Hn.
  - subst n. rewrite main_step. unfold menu_turn.
    step_with run_print_menu. step. unfold dispatch. rewrite Hl.
    simpl. rewrite run_print. subst s1. by norm_logs.
  - rewrite (main_after_option l rest s n Hl) by (subst n; discriminate).
    fold s1. unfold dispatch. rewrite Hl. subst n. simpl. apply K.
  - rewrite (main_after_option l rest s n Hl) by (subst n; discriminate).
    fold s1. unfold dispatch. rewrite Hl. subst n. simpl. apply K.
  - rewrite (main_after_option l rest s n Hl) by (subst n; discriminate).
    fold s1. unfold dispatch. rewrite Hl. subst n. simpl. apply K.
  - rewrite (main_after_option l rest s n Hl) by (subst n; discriminate).
    fold s1. unfold dispatch. rewrite Hl. subst n. simpl. apply K.
  - rewrite (main_after_option l rest s n Hl) by (subst n; discriminate).
    fold s1. unfold dispatch. rewrite Hl. subst n. simpl. apply K.
  - rewrite (main_after_option l rest s n Hl)
      by (unfold EXIT_OPT; lia).
    fold s1. unfold dispatch. rewrite Hl.
    unfold EXIT_OPT, CREATE_OPT, SEARCH_OPT, SHOW_ALL_OPT, UPDATE_OPT,
      DELETE_OPT.
    repeat match goal with
           | |- context [?a =? ?b] =>
               replace (a =? b) with false by (symmetry; apply Z.eqb_neq; lia)
           end.
    step. rewrite run_ret. reflexivity.
Qed.

(** ** A name that is not there *)

(** X1.  When no stored contact has the name looked up, each of the three
    flows says "Contact <Name> not found, please try again." with the name
    capitalized, asks nothing more, reads no further line and leaves the
    collection alone.  [search_one] and [update] look up the lower-cased
    line, [delete] the line as typed. *)
Theorem name_not_found q rest s :
  (first_match NAME_KEY (VStr (lower q)) (db_contacts s) = None →
   search_one (q :: rest) s
   = Ok tt rest
       (logs [Prompt "Enter name to search: ";
              Call (FindOne NAME_KEY (VStr (lower q)));
              not_found_line (lower q)] s)
   ∧ update (q :: rest) s
     = Ok tt rest
         (logs [Prompt "Enter name to search: ";
                Call (FindOne NAME_KEY (VStr (lower q)));
                not_found_line (lower q)] s))
  ∧ (first_match NAME_KEY (VStr q) (db_contacts s) = None →
     delete (q :: rest) s
     = Ok tt rest
         (logs [Prompt "Enter name to delete: ";
                Call (FindOne NAME_KEY (VStr q));
                not_found_line q] s)).
Proof.
  split; [intros H; split|intros H].
  - unfold search_one. step. step_with run_find_one. rewrite db_logs, H.
    cbn [fmap option_fmap option_map]. unfold not_found.
    rewrite run_print. by norm_logs.
  - unfold update. step. step_with run_find_one. rewrite db_logs, H.
    cbn [fmap option_fmap option_map]. unfold not_found.
    rewrite run_print. by norm_logs.
  - unfold delete. step. step_with run_find_one. rewrite db_logs, H.
    cbn [fmap option_fmap option_map]. unfold not_found.
    rewrite run_print. by norm_logs.
Qed.

(** ** The store calls of each flow *)

Lemma respects_calls_only (C : store_call → Prop) {A} (m : M A) :
  respects (allowing C) (λ _ _, True) m → calls_only C m.
Proof.
  intros R ins s. destruct (R ins s) as (_ & (new & T & F) & _).
  exists new. split; [exact T|]. intros c Hc.
  rewrite Forall_forall in F. exact (F _ Hc).
Qed.

(** X2.  Which methods of the collection each flow calls, whatever is typed
    and however it ends: [search_one] only [find_one]; [show_all] only
    [count_documents] and [find]; [create_contact] only [insert_one];
    [update] only [find_one] and [update_one]; [delete] only [find_one] and
    [delete_one]. *)
Theorem store_calls_of_each_flow :
  calls_only is_find_one search_one
  ∧ calls_only is_listing show_all
  ∧ calls_only is_insert_one create_contact
  ∧ calls_only is_find_or_update update
  ∧ calls_only is_find_or_delete delete.
Proof.
  split; [|split; [|split; [|split]]]; apply respects_calls_only.
  - apply respects_search_one; [exact anything_preorder|intros; exact I].
  - apply respects_show_all; [exact anything_preorder|exact I|exact I].
  - apply respects_create_contact;
      [exact anything_preorder|intros; exact I|intros; exact I].
  - apply respects_update;
      [exact anything_preorder|intros; exact I..].
  - apply respects_delete;
      [exact anything_preorder|intros; exact I..].
Qed.

(** ** What [print_contact] needs *)

(** X8.  [print_contact] prints a document that has the five keys and a
    string for its name, in one [print].  A document without [_id] or
    without a name, or with a string name and without age, phone or email,
    gives [KeyError]; a name that is an integer gives [AttributeError] (it
    has no [capitalize]).  In the error cases nothing is printed. *)
Theorem print_contact_needs_a_whole_contact c ins s :
  (∀ text, contact_display c = Some text →
           print_contact c ins s = Ok tt ins (logs [Print text] s))
  ∧ (c !! ID_KEY = None ∨ c !! NAME_KEY = None →
     print_contact c ins s = Raise KeyError ins s)
  ∧ (∀ n, is_Some (c !! ID_KEY) → c !! NAME_KEY = Some (VInt n) →
          print_contact c ins s = Raise AttributeError ins s)
  ∧ (∀ t, is_Some (c !! ID_KEY) → c !! NAME_KEY = Some (VStr t) →
          c !! AGE_KEY = None ∨ c !! PHONE_KEY = None ∨ c !! EMAIL_KEY = None →
          print_contact c ins s = Raise KeyError ins s).
Proof.
  split; [intros text; apply print_contact_display|].
  unfold print_contact, bind, getitem. split; [|split].
  - intros [H|H].
    + by rewrite H.
    + rewrite H. by destruct (c !! ID_KEY).
  - intros n [i Hi] Hn. by rewrite Hi, Hn.
  - intros t [i Hi] Hn H. rewrite Hi, Hn. simpl.
    destruct (c !! AGE_KEY); simpl; [|done].
    destruct (c !! PHONE_KEY); simpl; [|done].
    destruct (c !! EMAIL_KEY); simpl; [|done].
    by destruct H as [H|[H|H]].
Qed.

(** ** Composing the flows *)

Lemma first_match_insert_same key v docs pos c c' :
  first_match key v docs = Some (pos, c) → c' !! key = Some v →
  first_match key v (<[pos := c']> docs) = Some (pos, c').
Proof.
  intros H Hc. apply first_match_Some in H as (Hp & Hk & Hlt).
  unfold first_match. apply list_find_Some. split; [|split].
  - apply list_lookup_insert_eq. by eapply lookup_lt_Some.
  - exact Hc.
  - intros j d Hj Hjp. rewrite list_lookup_insert_ne in Hj by lia.
    by eapply Hlt.
Qed.

Lemma first_match_delete_only key v docs pos :
  (∀ j d, docs !! j = Some d → j ≠ pos → d !! key ≠ Some v) →
  first_match key v (base.delete pos docs) = None.
Proof.
  intros Ho. apply first_match_None. intros d Hd.
  apply list_elem_of_lookup in Hd as [j Hj].
  rewrite list_lookup_delete in Hj.
  destruct (decide (j < pos)%nat); eapply Ho; eauto; lia.
Qed.

Lemma display_updated_age c i t a p e n :
  c !! ID_KEY = Some i → c !! NAME_KEY = Some (VStr t) →
  c !! AGE_KEY = Some a → c !! PHONE_KEY = Some p → c !! EMAIL_KEY = Some e →
  contact_display c = Some (contact_text i (capitalize t) a p e)
  ∧ contact_display (<[AGE_KEY := VInt n]> c)
    = Some (contact_text i (capitalize t) (VInt n) p e).
Proof.
  intros Hi Hn Ha Hp He. unfold contact_display.
  rewrite lookup_insert_eq.
  rewrite !lookup_insert_ne by discriminate.
  by rewrite Hi, Hn, Ha, Hp, He.
Qed.

Lemma update_age_found l fl bads v n rest s pos c text i :
  first_match NAME_KEY (VStr (lower l)) (db_contacts s) = Some (pos, c) →
  contact_display c = Some text → c !! ID_KEY = Some i →
  storable i = true →
  strip (lower fl) = AGE_KEY →
  Forall (λ b, int (lower b) = None) bads → int (lower v) = Some n →
  storable (VInt n) = true →
  let r := update_reply i AGE_KEY (VInt n) (db_contacts s) in
  update (l :: fl :: bads ++ v :: rest) s
  = Ok tt rest
      (logs (update_shown (lower l) text
             ++ [Prompt "What field do you want to update? "]
             ++ retries "Enter the value: "
                  "Age must be a number. Please try again." bads
             ++ [Prompt "Enter the value: ";
                 Call (UpdateOne i AGE_KEY (VInt n));
                 Print ("Successfully updated. [" +:+ of_int (matched_count r)
                        +:+ "] [" +:+ format_option (upserted_id r) +:+ "]");
                 Print ("Raw result: " +:+ raw_result r)])
         (set_db (updated i AGE_KEY (VInt n) (db_contacts s)) s)).
Proof.
  intros Hf Hd Hi Si Hfl Hb Hv Sn r. unfold update. step.
  step_with run_find_one. rewrite db_logs, Hf.
  change (snd <$> Some (pos, c)) with (Some c). cbv iota.
  rewrite (truthy_found _ _ _ _ _ Hf). cbn [negb].
  step. step_with print_contact_display. step.
  erewrite bind_Ok.
  2: { apply field_loop_accepts. by rewrite Hfl. }
  rewrite Hfl.
  erewrite bind_Ok.
  2: { by apply value_loop_retries. }
  unfold getitem. rewrite Hi. step.
  erewrite bind_Ok.
  2: { apply run_update_one. by rewrite Si, Sn. }
  rewrite !db_logs. fold r.
  replace (upd_acknowledged r) with true
    by (symmetry; apply update_reply_acknowledged).
  step. rewrite run_print. norm_logs. by rewrite <- app_assoc.
Qed.

Lemma without_found docs pos c i :
  unique_ids docs → docs !! pos = Some c → c !! ID_KEY = Some i →
  without i docs = base.delete pos docs.
Proof.
  intros U Hp Hi. unfold without.
  by rewrite (unique_ids_first_match docs pos c i U Hp Hi).
Qed.

Lemma updated_found docs pos c i f v :
  unique_ids docs → docs !! pos = Some c → c !! ID_KEY = Some i →
  updated i f v docs = <[pos := <[f := v]> c]> docs
  ∧ update_reply i f v docs
    = {| upd_acknowledged := true; matched_count := 1;
         modified_count := if decide (c !! f = Some v) then 0 else 1;
         upserted_id := None |}.
Proof.
  intros U Hp Hi. unfold updated, update_reply.
  by rewrite (unique_ids_first_match docs pos c i U Hp Hi).
Qed.

(** X9.  [update] on the age of a contact found, in a collection without a
    repeated [_id]: the field is accepted as "age" in any casing and with
    blanks around it, lines that are no integer are asked again, and the
    integer typed replaces the age of the contact shown and of no other.
    The flow then reports one matched document and no upsert, and prints
    the raw reply of the server. *)
Theorem update_of_the_age_stores l fl bads v n rest s pos c text i :
  unique_ids (db_contacts s) →
  first_match NAME_KEY (VStr (lower l)) (db_contacts s) = Some (pos, c) →
  contact_display c = Some text → c !! ID_KEY = Some i →
  storable i = true →
  strip (lower fl) = AGE_KEY →
  Forall (λ b, int (lower b) = None) bads → int (lower v) = Some n →
  storable (VInt n) = true →
  ∃ s' raw,
    update (l :: fl :: bads ++ v :: rest) s = Ok tt rest s'
    ∧ db_contacts s' = <[pos := <[AGE_KEY := VInt n]> c]> (db_contacts s)
    ∧ trace s'
      = trace s
        ++ update_shown (lower l) text
        ++ [Prompt "What field do you want to update? "]
        ++ retries "Enter the value: "
             "Age must be a number. Please try again." bads
        ++ [Prompt "Enter the value: ";
            Call (UpdateOne i AGE_KEY (VInt n));
            Print "Successfully updated. [1] [None]";
            Print ("Raw result: " +:+ raw)].
Proof.
  intros U Hf Hd Hi Si Hfl Hb Hv Sn.
  pose proof (update_age_found l fl bads v n rest s pos c text i
                Hf Hd Hi Si Hfl Hb Hv Sn) as R.
  cbv zeta in R.
  destruct (first_match_Some _ _ _ _ _ Hf) as (Hp & _ & _).
  destruct (updated_found (db_contacts s) pos c i AGE_KEY (VInt n) U Hp Hi)
    as [Eu Er].
  rewrite Eu, Er in R. eexists. eexists. split; [exact R|]. split.
  - by rewrite db_logs.
  - rewrite trace_logs. reflexivity.
Qed.

(** X10.  After [update] has set the age of a contact, [search_one] for the
    same name, in any casing, shows that contact with the new age and its
    other fields as they were. *)
Theorem update_age_then_search l fl v n q rest rest' s pos c i a p e :
  unique_ids (db_contacts s) →
  first_match NAME_KEY (VStr (lower l)) (db_contacts s) = Some (pos, c) →
  c !! ID_KEY = Some i → c !! AGE_KEY = Some a →
  c !! PHONE_KEY = Some p → c !! EMAIL_KEY = Some e →
  storable i = true →
  strip (lower fl) = AGE_KEY → int (lower v) = Some n →
  storable (VInt n) = true →
  lower q = lower l →
  ∃ s',
    update (l :: fl :: v :: rest) s = Ok tt rest s'
    ∧ search_one (q :: rest') s'
      = Ok tt rest'
          (logs (search_shown (lower l)
                   (contact_text i (capitalize (lower l)) (VInt n) p e)) s').
Proof.
  intros U Hf Hi Ha Hp He Si Hfl Hv Sn Hq.
  destruct (first_match_Some _ _ _ _ _ Hf) as (Hpos & Hn & _).
  destruct (display_updated_age c i (lower l) a p e n Hi Hn Ha Hp He)
    as [D D'].
  pose proof (update_age_found l fl [] v n rest s pos c _ i
                Hf D Hi Si Hfl (List.Forall_nil _) Hv Sn) as R.
  cbv zeta in R. simpl app in R.
  destruct (updated_found (db_contacts s) pos c i AGE_KEY (VInt n) U Hpos Hi)
    as [Eu _].
  rewrite Eu in R. eexists. split; [exact R|].
  rewrite <- Hq. apply search_one_found with (pos := pos)
    (c := <[AGE_KEY := VInt n]> c).
  - rewrite db_logs. cbn [db_contacts set_db]. rewrite Hq.
    apply first_match_insert_same with (c := c); [exact Hf|].
    rewrite lookup_insert_ne by discriminate. exact Hn.
  - rewrite Hq. exact D'.
Qed.

(** X11.  After a confirmed [delete] of the only contact of that name,
    [search_one] for the name, in any casing, reports it as not found. *)
Theorem delete_then_search l ans q rest rest' s pos c text i :
  unique_ids (db_contacts s) →
  first_match NAME_KEY (VStr l) (db_contacts s) = Some (pos, c) →
  contact_display c = Some text → c !! ID_KEY = Some i →
  storable i = true →
  (∀ j d, db_contacts s !! j = Some d → j ≠ pos →
          d !! NAME_KEY ≠ Some (VStr l)) →
  lower ans = "y" ∨ lower ans = "yes" →
  lower q = l →
  ∃ s',
    delete (l :: ans :: rest) s = Ok tt rest s'
    ∧ db_contacts s' = base.delete pos (db_contacts s)
    ∧ search_one (q :: rest') s'
      = Ok tt rest'
          (logs [Prompt "Enter name to search: ";
                 Call (FindOne NAME_KEY (VStr l));
                 not_found_line l] s').
Proof.
  intros U Hf Hd Hi Si Ho Hy Hq.
  pose proof (delete_found l ans rest s pos c text i Hf Hd Hi Si) as R.
  apply py_in_yes in Hy. rewrite Hy in R.
  destruct (first_match_Some _ _ _ _ _ Hf) as (Hpos & _ & _).
  rewrite (without_found _ _ _ _ U Hpos Hi) in R.
  eexists. split; [exact R|]. split; [by rewrite db_logs|].
  unfold search_one. step. step_with run_find_one. rewrite Hq.
  rewrite !db_logs. cbn [db_contacts set_db].
  rewrite (first_match_delete_only _ _ _ _ Ho).
  cbn [fmap option_fmap option_map]. unfold not_found, not_found_line.
  rewrite run_print. by norm_logs.
Qed.

(** X12.  Creating a contact with a new id and a new name, then deleting it
    by its name as stored (lower-cased) and answering yes, gives back the
    collection as it was before the two. *)
Theorem create_then_delete i n a p e ans rest rest' s idv agev :
  int i = Some idv → int a = Some agev →
  storable (VInt idv) = true → storable (VInt agev) = true →
  first_match ID_KEY (VInt idv) (db_contacts s) = None →
  first_match NAME_KEY (VStr (lower n)) (db_contacts s) = None →
  lower ans = "y" ∨ lower ans = "yes" →
  ∃ s' s'',
    create_contact (i :: n :: a :: p :: e :: rest) s = Ok tt rest s'
    ∧ delete (lower n :: ans :: rest') s' = Ok tt rest' s''
    ∧ db_contacts s'
      = db_contacts s ++ [new_contact idv (lower n) agev (lower p) (lower e)]
    ∧ db_contacts s'' = db_contacts s.
Proof.
  intros Hi Ha Si Sa Hid Hname Hy.
  pose proof (create_contact_fresh i n a p e rest s idv agev
                Hi Ha Si Sa Hid) as R.
  cbv zeta in R.
  set (doc := new_contact idv (lower n) agev (lower p) (lower e)) in *.
  eexists. eexists. split; [exact R|].
  assert (first_match NAME_KEY (VStr (lower n)) (db_contacts s ++ [doc])
          = Some (length (db_contacts s), doc)) as Hf.
  { apply first_match_app_fresh; [exact Hname|apply new_contact_name]. }
  assert (first_match ID_KEY (VInt idv) (db_contacts s ++ [doc])
          = Some (length (db_contacts s), doc)) as Hf'.
  { apply first_match_app_fresh; [exact Hid|apply new_contact_id]. }
  split; [|split; [by rewrite db_logs|]].
  - erewrite delete_found.
    + apply py_in_yes in Hy. rewrite Hy. reflexivity.
    + rewrite db_logs. cbn [db_contacts set_db]. exact Hf.
    + apply display_new_contact.
    + apply new_contact_id.
    + exact Si.
  - rewrite !db_logs. cbn [db_contacts set_db]. unfold without. rewrite Hf'.
    rewrite (delete_middle (db_contacts s) [] doc). apply app_nil_r.
Qed.

(** X13.  After a contact with a new id is created, [show_all] lists the
    contacts that were there, in their order, and then the new one with its
    name capitalized and its phone and email lower-cased. *)
Theorem create_then_show_all i n a p e rest rest' s idv agev texts :
  int i = Some idv → int a = Some agev →
  storable (VInt idv) = true → storable (VInt agev) = true →
  first_match ID_KEY (VInt idv) (db_contacts s) = None →
  Forall2 (λ c t, contact_display c = Some t) (db_contacts s) texts →
  ∃ s',
    create_contact (i :: n :: a :: p :: e :: rest) s = Ok tt rest s'
    ∧ show_all rest' s'
      = Ok tt rest'
          (logs ([Call CountDocuments; Call Find]
                 ++ listing
                      (texts
                       ++ [contact_text (VInt idv) (capitalize (lower n))
                             (VInt agev) (VStr (lower p)) (VStr (lower e))])
                 ++ [Print SEP29]) s').
Proof.
  intros Hi Ha Si Sa Hid Ht.
  pose proof (create_contact_fresh i n a p e rest s idv agev
                Hi Ha Si Sa Hid) as R.
  cbv zeta in R. eexists. split; [exact R|].
  apply show_all_listing.
  - rewrite db_logs. cbn [db_contacts set_db]. intros E.
    by apply app_eq_nil in E as [_ E].
  - rewrite db_logs. cbn [db_contacts set_db]. apply Forall2_app; [exact Ht|].
    constructor; [apply display_new_contact|constructor].
Qed.

(** ** The field loop of [update] *)

Lemma field_loop_step l rest s :
  field_loop (l :: rest) s
  = match field_answer l with
    | Some f => Ok f rest (log (Prompt "What field do you want to update? ") s)
    | None =>
        field_loop rest
          (log (Print (field_complaint l))
             (log (Prompt "What field do you want to update? ") s))
    end.
Proof.
  simpl field_loop. unfold field_answer, field_complaint.
  generalize (strip (lower l)). intros f.
  destruct (String.eqb_spec f "id") as [->|Hid]; [reflexivity|].
  destruct (decide (f = "id")) as [|_]; [done|].
  destruct (decide (f = "phone number")) as [->|Hph]; [reflexivity|].
  destruct (decide (f = "e-mail")) as [->|Hem]; [reflexivity|].
  assert (py_in f ["phone number"] = false) as ->.
  { apply bool_decide_eq_false. rewrite elem_of_cons, elem_of_nil. tauto. }
  assert (py_in f ["e-mail"] = false) as ->.
  { apply bool_decide_eq_false. rewrite elem_of_cons, elem_of_nil. tauto. }
  unfold py_in.
  destruct (decide (f ∈ [NAME_KEY; AGE_KEY; PHONE_KEY; EMAIL_KEY])) as [Y|N].
  - by rewrite (bool_decide_eq_true_2 _ Y).
  - by rewrite (bool_decide_eq_false_2 _ N).
Qed.

(** X14.  The first question of [update].  An answer is lower-cased and
    stripped; "name", "age", "phone" and "email" are accepted, "phone
    number" stands for "phone" and "e-mail" for "email".  Every other
    answer is told why, "id" that it is immutable and the rest that the
    field does not exist, and the question comes again, as often as it
    takes.  The field the loop ends with is one of the four. *)
Theorem field_loop_asks_until_a_field bads l f rest s :
  Forall (λ b, field_answer b = None) bads → field_answer l = Some f →
  field_loop (bads ++ l :: rest) s
  = Ok f rest
      (logs (flat_map
               (λ b, [Prompt "What field do you want to update? ";
                      Print (field_complaint b)]) bads
             ++ [Prompt "What field do you want to update? "]) s)
  ∧ updatable f.
Proof.
  intros Hb Hl. split.
  - revert s. induction Hb as [|b bads Hb _ IH]; intros s.
    + simpl app. by rewrite field_loop_step, Hl.
    + simpl app. rewrite field_loop_step, Hb, IH. by norm_logs.
  - unfold field_answer in Hl. unfold updatable.
    destruct (decide (strip (lower l) = "phone number"));
      [injection Hl as <-; set_solver|].
    destruct (decide (strip (lower l) = "e-mail"));
      [injection Hl as <-; set_solver|].
    destruct (decide (strip (lower l)
                      ∈ [NAME_KEY; AGE_KEY; PHONE_KEY; EMAIL_KEY]));
      [by injection Hl as <-|done].
Qed.

(** ** Integers that do not fit *)

Lemma new_contact_not_encodable i n a p e :
  storable (VInt i) = false ∨ storable (VInt a) = false →
  encodable (new_contact i n a p e) = false.
Proof.
  intros H. destruct (encodable (new_contact i n a p e)) eqn:E; [|done].
  unfold encodable in E. apply bool_decide_eq_true in E.
  pose proof (E ID_KEY (VInt i) (new_contact_id i n a p e)) as E1.
  assert (new_contact i n a p e !! AGE_KEY = Some (VInt a)) as Ha
    by reflexivity.
  pose proof (E AGE_KEY (VInt a) Ha) as E2. cbv beta in E1, E2.
  destruct H as [H|H]; congruence.
Qed.

(** X15.  An id or an age that is an integer but does not fit in eight
    bytes is not refused by the loops of [create_contact]: it reaches
    [insert_one], which raises [OverflowError].  The flow does not catch
    it, nothing is stored, and the program chosen from the menu ends with
    that exception. *)
Theorem create_contact_out_of_range o i n a p e rest s idv agev :
  int i = Some idv → int a = Some agev →
  storable (VInt idv) = false ∨ storable (VInt agev) = false →
  let doc := new_contact idv (lower n) agev (lower p) (lower e) in
  create_contact (i :: n :: a :: p :: e :: rest) s
  = Raise OverflowError rest
      (logs (create_prompts ++ [Call (InsertOne doc)]) s)
  ∧ (int o = Some CREATE_OPT →
     main (o :: i :: n :: a :: p :: e :: rest) s
     = Some (Raise OverflowError rest
               (logs (menu_lines ++ [Prompt "Select option> "]
                      ++ create_prompts ++ [Call (InsertOne doc)]) s))).
Proof.
  intros Hi Ha Hs doc.
  assert (∀ s0, create_contact (i :: n :: a :: p :: e :: rest) s0
                = Raise OverflowError rest
                    (logs (create_prompts ++ [Call (InsertOne doc)]) s0)) as K.
  { intros s0. unfold create_contact.
    step_with int_loop_good. step. step_with int_loop_good. do 2 step.
    unfold store_contact, try_except, bind, insert_one, emit. fold doc.
    unfold bind. subst doc.
    rewrite (new_contact_not_encodable _ _ _ _ _ Hs). simpl.
    by norm_logs. }
  split; [apply K|]. intros Ho.
  rewrite (main_after_option o _ s CREATE_OPT Ho) by discriminate.
  unfold dispatch. rewrite Ho. simpl. unfold bind at 1.
  rewrite K. by norm_logs.
Qed.

(** ** The further properties at work on the small agenda *)

Lemma sound_agenda_two : sound (db_contacts agenda_two).
Proof.
  split; [exact unique_ids_agenda_two|].
  repeat (apply List.Forall_cons;
            [apply well_formed_new_contact; vm_compute; reflexivity|]).
  apply List.Forall_nil.
Qed.

Lemma sound_agenda_ana : sound (db_contacts agenda_ana).
Proof.
  split; [exact unique_ids_agenda_ana|].
  repeat (apply List.Forall_cons;
            [apply well_formed_new_contact; vm_compute; reflexivity|]).
  apply List.Forall_nil.
Qed.

Lemma name_not_found_witness :
  (search_one ["Bob"] agenda_ana
   = Ok tt []
       (logs [Prompt "Enter name to search: ";
              Call (FindOne NAME_KEY (VStr "bob"));
              not_found_line "bob"] agenda_ana)
   ∧ update ["Bob"] agenda_ana
     = Ok tt []
         (logs [Prompt "Enter name to search: ";
                Call (FindOne NAME_KEY (VStr "bob"));
                not_found_line "bob"] agenda_ana))
  ∧ delete ["Ana"; "y"] agenda_ana
    = Ok tt ["y"]
        (logs [Prompt "Enter name to delete: ";
               Call (FindOne NAME_KEY (VStr "Ana"));
               not_found_line "Ana"] agenda_ana).
Proof.
  split.
  - apply (proj1 (name_not_found "Bob" [] agenda_ana)).
    vm_compute; reflexivity.
  - apply (proj2 (name_not_found "Ana" ["y"] agenda_ana)).
    vm_compute; reflexivity.
Defined.

Lemma print_contact_needs_a_whole_contact_witness :
  print_contact ana [] agenda_ana = Ok tt [] (logs [Print ana_text] agenda_ana)
  ∧ print_contact ∅ [] agenda_ana = Raise KeyError [] agenda_ana
  ∧ print_contact (<[NAME_KEY := VInt 5]> ana) [] agenda_ana
    = Raise AttributeError [] agenda_ana.
Proof.
  split; [|split].
  - apply (proj1 (print_contact_needs_a_whole_contact ana [] agenda_ana)).
    vm_compute; reflexivity.
  - apply (proj1 (proj2 (print_contact_needs_a_whole_contact ∅ [] agenda_ana))).
    left. reflexivity.
  - apply (proj1 (proj2 (proj2 (print_contact_needs_a_whole_contact
                                  (<[NAME_KEY := VInt 5]> ana) [] agenda_ana)))
             5).
    + eexists. vm_compute; reflexivity.
    + vm_compute; reflexivity.
Defined.

Lemma returning_flow_changes_one_thing_witness :
  ∃ s',
    delete ["ana"; "yes"] agenda_two = Ok tt [] s'
    ∧ (db_contacts s' = db_contacts agenda_two
       ∨ ∃ pos c,
           db_contacts agenda_two !! pos = Some c
           ∧ db_contacts s' = base.delete pos (db_contacts agenda_two)).
Proof.
  eexists. split; [vm_compute; reflexivity|].
  apply (proj1 (proj2 (proj2 (returning_flow_changes_one_thing
                                ["ana"; "yes"] agenda_two [] _)))).
  vm_compute; reflexivity.
Defined.

Lemma raising_flow_changes_nothing_witness :
  ∃ s',
    update ["ana"; "name"; "bob"] agenda_ana = Raise EOFError [] s'
    ∧ db_contacts s' = db_contacts agenda_ana.
Proof.
  eexists. split; [vm_compute; reflexivity|].
  apply (raising_flow_changes_nothing ["ana"; "name"; "bob"] agenda_ana
           EOFError []).
  right; right; right; left. vm_compute; reflexivity.
Defined.

Lemma sound_flows_raise_little_witness :
  sound (db_contacts agenda_two)
  ∧ (∃ s', show_all ["0"] agenda_two = Ok tt ["0"] s')
  ∧ (∀ e ins' s', search_one ["0"] agenda_two = Raise e ins' s' → e = EOFError)
  ∧ (∀ e ins' s', delete ["0"] agenda_two = Raise e ins' s' → e = EOFError)
  ∧ (∀ e ins' s', create_contact ["0"] agenda_two = Raise e ins' s' →
                  e = EOFError ∨ e = OverflowError)
  ∧ (∀ e ins' s', update ["0"] agenda_two = Raise e ins' s' →
                  e = EOFError ∨ e = OverflowError).
Proof.
  split; [exact sound_agenda_two|].
  apply (sound_flows_raise_little ["0"] agenda_two). exact sound_agenda_two.
Defined.

Lemma main_on_a_sound_collection_witness :
  sound (db_contacts agenda_two)
  ∧ ∃ r, main ["5"; "ana"; "y"; "3"; "0"] agenda_two = Some r
         ∧ match r with
           | Ok _ _ s' =>
               sound (db_contacts s')
               ∧ ∃ before,
                   trace s'
                   = before ++ [Print "Thanks for using this app! Cya!"]
           | Raise e _ s' =>
               (e = EOFError ∨ e = OverflowError) ∧ sound (db_contacts s')
           end.
Proof.
  split; [exact sound_agenda_two|].
  apply (main_on_a_sound_collection ["5"; "ana"; "y"; "3"; "0"] agenda_two).
  exact sound_agenda_two.
Defined.

Lemma menu_options_witness :
  int "2" = Some 2
  ∧ main ("2" :: ["ana"; "0"]) agenda_ana
    = then_menu
        (search_one ["ana"; "0"]
           (logs (menu_lines ++ [Prompt "Select option> "]) agenda_ana))
  ∧ main ("9" :: ["0"]) agenda_ana
    = main ["0"]
        (logs [Print "*** Not a valid option. Please try again. ***"]
           (logs (menu_lines ++ [Prompt "Select option> "]) agenda_ana)).
Proof.
  split; [reflexivity|]. split.
  - apply (proj1 (proj2 (proj2
             (menu_options "2" ["ana"; "0"] agenda_ana 2 eq_refl)))).
    reflexivity.
  - apply (proj2 (proj2 (proj2 (proj2 (proj2 (proj2
             (menu_options "9" ["0"] agenda_ana 9 eq_refl))))))).
    right. reflexivity.
Defined.

Lemma update_of_the_age_stores_witness :
  ∃ s' raw,
    update ("ANA" :: " Age " :: ["old"; "3.5"] ++ "31" :: ["0"]) agenda_two
    = Ok tt ["0"] s'
    ∧ db_contacts s'
      = <[0%nat := <[AGE_KEY := VInt 31]> ana]> (db_contacts agenda_two)
    ∧ trace s'
      = trace agenda_two
        ++ update_shown "ana" ana_text
        ++ [Prompt "What field do you want to update? "]
        ++ retries "Enter the value: "
             "Age must be a number. Please try again." ["old"; "3.5"]
        ++ [Prompt "Enter the value: ";
            Call (UpdateOne (VInt 1) AGE_KEY (VInt 31));
            Print "Successfully updated. [1] [None]";
            Print ("Raw result: " +:+ raw)].
Proof.
  apply (update_of_the_age_stores "ANA" " Age " ["old"; "3.5"] "31" 31 ["0"]
           agenda_two 0%nat ana ana_text (VInt 1)).
  - exact unique_ids_agenda_two.
  - vm_compute; reflexivity.
  - vm_compute; reflexivity.
  - vm_compute; reflexivity.
  - reflexivity.
  - vm_compute; reflexivity.
  - repeat constructor.
  - reflexivity.
  - reflexivity.
Defined.

Lemma update_age_then_search_witness :
  ∃ s',
    update ["Ana"; "AGE"; "31"; "0"] agenda_two = Ok tt ["0"] s'
    ∧ search_one ["ANA"] s'
      = Ok tt []
          (logs (search_shown "ana"
                   (contact_text (VInt 1) "Ana" (VInt 31) (VStr "555-1111")
                      (VStr "ana@x.com"))) s').
Proof.
  apply (update_age_then_search "Ana" "AGE" "31" 31 "ANA" ["0"] []
           agenda_two 0%nat ana (VInt 1) (VInt 30) (VStr "555-1111")
           (VStr "ana@x.com")).
  - exact unique_ids_agenda_two.
  - vm_compute; reflexivity.
  - vm_compute; reflexivity.
  - vm_compute; reflexivity.
  - vm_compute; reflexivity.
  - vm_compute; reflexivity.
  - reflexivity.
  - vm_compute; reflexivity.
  - reflexivity.
  - reflexivity.
  - reflexivity.
Defined.

Lemma delete_then_search_witness :
  ∃ s',
    delete ["ana"; "Y"; "0"] agenda_ana = Ok tt ["0"] s'
    ∧ db_contacts s' = base.delete 0%nat (db_contacts agenda_ana)
    ∧ search_one ["Ana"] s'
      = Ok tt []
          (logs [Prompt "Enter name to search: ";
                 Call (FindOne NAME_KEY (VStr "ana"));
                 not_found_line "ana"] s').
Proof.
  apply (delete_then_search "ana" "Y" "Ana" ["0"] [] agenda_ana 0%nat ana
           ana_text (VInt 1)).
  - exact unique_ids_agenda_ana.
  - vm_compute; reflexivity.
  - vm_compute; reflexivity.
  - vm_compute; reflexivity.
  - reflexivity.
  - intros [|j] d H N; [done|]. simpl in H. done.
  - left. reflexivity.
  - reflexivity.
Defined.

Lemma create_then_delete_witness :
  ∃ s' s'',
    create_contact ["7"; "Bob"; "41"; "555-XYZ"; "Bob@Y.org"] agenda_ana
    = Ok tt [] s'
    ∧ delete ["bob"; "Yes"] s' = Ok tt [] s''
    ∧ db_contacts s'
      = db_contacts agenda_ana
        ++ [new_contact 7 "bob" 41 "555-xyz" "bob@y.org"]
    ∧ db_contacts s'' = db_contacts agenda_ana.
Proof.
  apply (create_then_delete "7" "Bob" "41" "555-XYZ" "Bob@Y.org" "Yes" [] []
           agenda_ana 7 41).
  - reflexivity.
  - reflexivity.
  - reflexivity.
  - reflexivity.
  - vm_compute; reflexivity.
  - vm_compute; reflexivity.
  - right. reflexivity.
Defined.

Lemma create_then_show_all_witness :
  ∃ s',
    create_contact ["7"; "Bob"; "41"; "555-XYZ"; "Bob@Y.org"] agenda_ana
    = Ok tt [] s'
    ∧ show_all [] s'
      = Ok tt []
          (logs ([Call CountDocuments; Call Find]
                 ++ listing
                      ([ana_text]
                       ++ [contact_text (VInt 7) "Bob" (VInt 41)
                             (VStr "555-xyz") (VStr "bob@y.org")])
                 ++ [Print SEP29]) s').
Proof.
  apply (create_then_show_all "7" "Bob" "41" "555-XYZ" "Bob@Y.org" [] []
           agenda_ana 7 41 [ana_text]).
  - reflexivity.
  - reflexivity.
  - reflexivity.
  - reflexivity.
  - vm_compute; reflexivity.
  - repeat constructor.
Defined.

Lemma field_loop_asks_until_a_field_witness :
  field_loop ([" ID "; "address"] ++ " Phone Number " :: ["0"]) agenda_ana
  = Ok PHONE_KEY ["0"]
      (logs (flat_map
               (λ b, [Prompt "What field do you want to update? ";
                      Print (field_complaint b)]) [" ID "; "address"]
             ++ [Prompt "What field do you want to update? "]) agenda_ana)
  ∧ updatable PHONE_KEY.
Proof.
  apply (field_loop_asks_until_a_field [" ID "; "address"] " Phone Number "
           PHONE_KEY ["0"] agenda_ana).
  - repeat constructor; vm_compute; reflexivity.
  - vm_compute; reflexivity.
Defined.

Lemma create_contact_out_of_range_witness :
  create_contact ["9223372036854775808"; "Bob"; "41"; "555"; "b@y.org"]
    agenda_ana
  = Raise OverflowError []
      (logs (create_prompts
             ++ [Call (InsertOne (new_contact 9223372036854775808 "bob" 41
                                    "555" "b@y.org"))]) agenda_ana)
  ∧ main ["1"; "9223372036854775808"; "Bob"; "41"; "555"; "b@y.org"]
      agenda_ana
    = Some (Raise OverflowError []
              (logs (menu_lines ++ [Prompt "Select option> "]
                     ++ create_prompts
                     ++ [Call (InsertOne (new_contact 9223372036854775808
                                            "bob" 41 "555" "b@y.org"))])
                 agenda_ana)).
Proof.
  destruct (create_contact_out_of_range "1" "9223372036854775808" "Bob" "41"
              "555" "b@y.org" [] agenda_ana 9223372036854775808 41)
    as [H1 H2].
  - vm_compute; reflexivity.
  - reflexivity.
  - left. vm_compute; reflexivity.
  - split; [exact H1|]. apply H2. reflexivity.
Defined.
